(** * Crossword CSP solver (crossword/generate.py): shallow embedding

    The development embeds [CrosswordCreator] of [src/crossword/generate.py]:
    the domain store, node and arc consistency ([enforce_node_consistency],
    [revise], [ac3]), the assignment validator ([consistent],
    [assignment_complete]), the two ordering heuristics and the
    backtracking search ([backtrack], [solve]).

    Conventions of the embedding.
    - A Python [set] is a duplicate-free list ([ListSet.set]); its iteration
      order is the list order (Python leaves it unspecified).
    - A Python [dict] used as the assignment is an association list in
      insertion order, as Python iterates it.
    - A Python exception is the outcome [Raise]; loops and recursion that
      are not structural take fuel and yield [Diverge] when it runs out. *)

From Stdlib Require Import List String Ascii Arith Bool Lia ListSet Sorted
  Permutation.
Import ListNotations.

(** ** Outcomes of a Python computation *)

Inductive exn : Type := IndexError | KeyError | TypeError.

Inductive res (A : Type) : Type :=
| Ret (a : A)
| Raise (e : exn)
| Diverge.

Arguments Ret {A} a.
Arguments Raise {A} e.
Arguments Diverge {A}.

Definition bind {A B : Type} (m : res A) (k : A -> res B) : res B :=
  match m with
  | Ret a => k a
  | Raise e => Raise e
  | Diverge => Diverge
  end.

Notation "x <- m ;; k" := (bind m (fun x => k))
  (at level 61, m at next level, right associativity).
Notation "' p <- m ;; k" := (bind m (fun p => k))
  (at level 61, p pattern, m at next level, right associativity).

(** ** Slots (class [Variable] of the source; the word is reserved here) *)

Inductive Direction : Type := ACROSS | DOWN.

Record Var : Type := mkVar {
  var_i : nat;
  var_j : nat;
  var_direction : Direction;
  var_length : nat
}.

Definition Direction_eq_dec (x y : Direction) : {x = y} + {x <> y}.
Proof. decide equality. Defined.

Definition Var_eq_dec (x y : Var) : {x = y} + {x <> y}.
Proof. decide equality; try apply Nat.eq_dec; apply Direction_eq_dec. Defined.

(** Words are Python strings. *)
Abbreviation word := string (only parsing).

(** An arc is an ordered pair of slots. *)
Abbreviation arc := (Var * Var)%type (only parsing).

Definition arc_eq_dec (x y : arc) : {x = y} + {x <> y}.
Proof. decide equality; apply Var_eq_dec. Defined.

(** ** The structural model *)

(** Modelled from the spec: class [Crossword] lives in crossword.py, which is
    not among the sources. The spec (section 3) gives it the set of all
    slots, the word list, and an overlap relation that stores, for a pair of
    slots sharing a cell, the pair of character indices at which they must
    agree, an absent entry meaning that the pair never overlaps. *)
Record Crossword : Type := mkCrossword {
  variables : set Var;
  words : set word;
  overlaps : Var -> Var -> option (nat * nat)
}.

Definition is_some {A : Type} (o : option A) : bool :=
  match o with Some _ => true | None => false end.

(** Modelled from the spec: [Crossword.neighbors] (crossword.py) is the
    derived neighbor relation, the set of slots overlapping a given slot. *)
Definition neighbors (cw : Crossword) (var : Var) : set Var :=
  filter (fun v => negb (if Var_eq_dec v var then true else false)
                   && is_some (overlaps cw v var))
         (variables cw).

(** ** Python primitives used by the solver *)

(** [s[k]] on a string. *)
Definition str_index (s : word) (k : nat) : res ascii :=
  match String.get k s with
  | Some c => Ret c
  | None => Raise IndexError
  end.

(** [o[0]], [o[1]] on an overlap entry: subscripting [None] is a TypeError. *)
Definition subscript (o : option (nat * nat)) : res (nat * nat) :=
  match o with
  | Some p => Ret p
  | None => Raise TypeError
  end.

Definition ascii_eqb (a b : ascii) : bool :=
  if ascii_dec a b then true else false.

(** [s.remove(x)] on a set: KeyError when [x] is absent. *)
Definition py_remove {A : Type} (dec : forall x y : A, {x = y} + {x <> y})
    (x : A) (s : set A) : res (set A) :=
  if set_mem dec x s then Ret (set_remove dec x s) else Raise KeyError.

(** [for x in xs: s.remove(x)]. *)
Fixpoint remove_each {A : Type} (dec : forall x y : A, {x = y} + {x <> y})
    (xs : list A) (s : set A) : res (set A) :=
  match xs with
  | [] => Ret s
  | x :: xs' => s' <- py_remove dec x s ;; remove_each dec xs' s'
  end.

(** [l.pop()] on a list: the last element and the rest. *)
Definition list_pop {A : Type} (l : list A) : option (A * list A) :=
  match rev l with
  | [] => None
  | x :: r => Some (x, rev r)
  end.

(** [l.sort(key=...)]: the sort is stable, its result is the one of any
    stable sort; here insertion from the right. *)
Fixpoint insert_by {A : Type} (key : A -> nat) (x : A) (l : list A) : list A :=
  match l with
  | [] => [x]
  | y :: l' => if key x <=? key y then x :: y :: l' else y :: insert_by key x l'
  end.

Definition sort_by {A : Type} (key : A -> nat) (l : list A) : list A :=
  fold_right (insert_by key) [] l.

(** ** The domain store *)

(** [self.domains]: the dict is keyed by every slot of the crossword and is
    only ever indexed by such slots; it is a total function here. *)
Definition Domains : Type := Var -> set word.

Definition update (d : Domains) (x : Var) (s : set word) : Domains :=
  fun v => if Var_eq_dec v x then s else d v.

(** [__init__]: every slot starts with a copy of the word list. *)
Definition init_domains (cw : Crossword) : Domains :=
  fun _ => words cw.

(** ** The assignment: a dict from slot to word *)

Definition Assignment : Type := list (Var * word).

Definition keys (a : Assignment) : list Var := map fst a.

Definition values (a : Assignment) : list word := map snd a.

(** [v in assignment] *)
Fixpoint assigned (v : Var) (a : Assignment) : bool :=
  match a with
  | [] => false
  | (k, _) :: a' => if Var_eq_dec k v then true else assigned v a'
  end.

(** [assignment[v]] *)
Fixpoint lookup (a : Assignment) (v : Var) : res word :=
  match a with
  | [] => Raise KeyError
  | (k, w) :: a' => if Var_eq_dec k v then Ret w else lookup a' v
  end.

(** [assignment[v] = w]: a present key keeps its place, a new one goes last. *)
Fixpoint dict_set (v : Var) (w : word) (a : Assignment) : Assignment :=
  match a with
  | [] => [(v, w)]
  | (k, w') :: a' =>
      if Var_eq_dec k v then (k, w) :: a' else (k, w') :: dict_set v w a'
  end.

Fixpoint dict_del (v : Var) (a : Assignment) : Assignment :=
  match a with
  | [] => []
  | (k, w) :: a' => if Var_eq_dec k v then a' else (k, w) :: dict_del v a'
  end.

(** [assignment.pop(v)]: KeyError when [v] is absent. *)
Definition dict_pop (v : Var) (a : Assignment) : res Assignment :=
  if assigned v a then Ret (dict_del v a) else Raise KeyError.

(** ** Consistency engine *)

Section Creator.

Variable cw : Crossword.

(** [enforce_node_consistency], body of the loop for one slot: collect the
    words of the wrong length, then remove them. *)
Definition node_removes (var : Var) (dom : set word) : list word :=
  filter (fun w => negb (var_length var =? String.length w)) dom.

Fixpoint enforce_node_loop (vars : list Var) (d : Domains) : res Domains :=
  match vars with
  | [] => Ret d
  | var :: vars' =>
      dom <- remove_each string_dec (node_removes var (d var)) (d var) ;;
      enforce_node_loop vars' (update d var dom)
  end.

Definition enforce_node_consistency (d : Domains) : res Domains :=
  enforce_node_loop (variables cw) d.

(** [revise]: the inner loop over [self.domains[y]], [hasMatch]. *)
Fixpoint has_match (i j : nat) (w : word) (dy : list word) : res bool :=
  match dy with
  | [] => Ret false
  | aword :: dy' =>
      c1 <- str_index w i ;;
      c2 <- str_index aword j ;;
      if ascii_eqb c1 c2 then Ret true else has_match i j w dy'
  end.

(** [revise]: the outer loop over [self.domains[x]], building [removes]
    and [revised]. *)
Fixpoint revise_scan (i j : nat) (dy : list word) (dx : list word)
    (removes : set word) (revised : bool) : res (set word * bool) :=
  match dx with
  | [] => Ret (removes, revised)
  | w :: dx' =>
      m <- has_match i j w dy ;;
      if m then revise_scan i j dy dx' removes revised
      else revise_scan i j dy dx' (set_add string_dec w removes) true
  end.

Definition revise (x y : Var) (d : Domains) : res (bool * Domains) :=
  match overlaps cw x y with
  | None => Ret (false, d)
  | Some (i, j) =>
      '(removes, revised) <- revise_scan i j (d y) (d x) [] false ;;
      dom <- remove_each string_dec removes (d x) ;;
      Ret (revised, update d x dom)
  end.

(** [ac3]: the initial list of arcs when none is supplied. *)
Definition initial_arcs_inner (var : Var) (vars : list Var) (arcs : list arc)
    : list arc :=
  fold_left (fun arcs var2 =>
               if Var_eq_dec var var2 then arcs
               else if in_dec arc_eq_dec (var2, var) arcs then arcs
                    else arcs ++ [(var, var2)])
            vars arcs.

Definition initial_arcs : list arc :=
  fold_left (fun arcs var => initial_arcs_inner var (variables cw) arcs)
            (variables cw) [].

(** [ac3]: the arcs appended after a revision of [x] against [y]. *)
Definition enqueue_neighbors (x y : Var) (arcs : list arc) : list arc :=
  fold_left (fun arcs neighbor =>
               if Var_eq_dec neighbor y then arcs
               else arcs ++ [(neighbor, x)])
            (neighbors cw x) arcs.

Fixpoint ac3_loop (fuel : nat) (arcs : list arc) (d : Domains)
    : res (bool * Domains) :=
  match fuel with
  | 0 => Diverge
  | S fuel' =>
      match list_pop arcs with
      | None => Ret (true, d)
      | Some (a, arcs') =>
          '(revised, d') <- revise (fst a) (snd a) d ;;
          if revised then
            if List.length (d' (fst a)) =? 0 then Ret (false, d')
            else ac3_loop fuel' (enqueue_neighbors (fst a) (snd a) arcs') d'
          else ac3_loop fuel' arcs' d'
      end
  end.

Definition total_size (d : Domains) : nat :=
  list_sum (map (fun v => List.length (d v)) (variables cw)).

(** Enough iterations for the [while arcs] loop: every pass either shortens
    the worklist or shrinks a domain. *)
Definition ac3_fuel (arcs : list arc) (d : Domains) : nat :=
  S (List.length arcs + S (List.length (variables cw)) * total_size d).

(** [ac3(arcs)]: [not arcs] holds for [None] and for the empty list. *)
Definition ac3 (arcs : option (list arc)) (d : Domains) : res (bool * Domains) :=
  let arcs0 := match arcs with
               | None | Some [] => initial_arcs
               | Some l => l
               end in
  ac3_loop (ac3_fuel arcs0 d) arcs0 d.

(** ** Assignment validator *)

(** [consistent]: the loop over the neighbors of one assigned slot;
    [false] stands for the early [return False]. *)
Fixpoint check_neighbors (a : Assignment) (variable : Var) (ns : list Var)
    : res bool :=
  match ns with
  | [] => Ret true
  | neighbor :: ns' =>
      if assigned neighbor a then
        wv <- lookup a variable ;;
        ov <- subscript (overlaps cw variable neighbor) ;;
        c1 <- str_index wv (fst ov) ;;
        wn <- lookup a neighbor ;;
        on <- subscript (overlaps cw variable neighbor) ;;
        c2 <- str_index wn (snd on) ;;
        if ascii_eqb c1 c2 then check_neighbors a variable ns' else Ret false
      else check_neighbors a variable ns'
  end.

Fixpoint consistent_loop (a : Assignment) (vars : list Var)
    (distinct : set word) : res bool :=
  match vars with
  | [] => Ret (List.length distinct =? List.length a)
  | variable :: vars' =>
      w <- lookup a variable ;;
      if negb (String.length w =? var_length variable) then Ret false
      else
        let distinct' := set_add string_dec w distinct in
        ok <- check_neighbors a variable (neighbors cw variable) ;;
        if ok then consistent_loop a vars' distinct' else Ret false
  end.

Definition consistent (a : Assignment) : res bool :=
  consistent_loop a (keys a) [].

Definition assignment_complete (a : Assignment) : res bool :=
  allVariables <- remove_each Var_eq_dec (keys a) (variables cw) ;;
  if List.length allVariables =? 0 then consistent a else Ret false.

(** ** Ordering heuristics *)

Section Heuristics.

Variable d : Domains.

(** [order_domain_values]: the loop over the words of one neighbor's
    domain, adding to [numRuledOut]. *)
Fixpoint count_mismatch (o : option (nat * nat)) (w : word) (dn : list word)
    (numRuledOut : nat) : res nat :=
  match dn with
  | [] => Ret numRuledOut
  | neighborWord :: dn' =>
      ov <- subscript o ;;
      c1 <- str_index w (fst ov) ;;
      on <- subscript o ;;
      c2 <- str_index neighborWord (snd on) ;;
      count_mismatch o w dn' (if ascii_eqb c1 c2 then numRuledOut
                              else S numRuledOut)
  end.

(** [order_domain_values]: the loop over the neighbors, for one word. *)
Fixpoint num_ruled_out (var : Var) (a : Assignment) (w : word)
    (ns : list Var) (numRuledOut : nat) : res nat :=
  match ns with
  | [] => Ret numRuledOut
  | neighbor :: ns' =>
      if assigned neighbor a then num_ruled_out var a w ns' numRuledOut
      else
        n <- count_mismatch (overlaps cw var neighbor) w (d neighbor)
                            numRuledOut ;;
        num_ruled_out var a w ns' n
  end.

Fixpoint sorting_list (var : Var) (a : Assignment) (ws : list word)
    : res (list (word * nat)) :=
  match ws with
  | [] => Ret []
  | w :: ws' =>
      n <- num_ruled_out var a w (neighbors cw var) 0 ;;
      rest <- sorting_list var a ws' ;;
      Ret ((w, n) :: rest)
  end.

Definition order_domain_values (var : Var) (a : Assignment) : res (list word) :=
  sortingList <- sorting_list var a (d var) ;;
  Ret (map fst (sort_by snd sortingList)).

(** [select_unassigned_variable]: the first loop, building [unassigned] and
    [shortest]; [not shortest] holds for [None] and for [0]. *)
Definition scan_step (a : Assignment) (st : list Var * option nat)
    (variable : Var) : list Var * option nat :=
  let '(unassigned, shortest) := st in
  if assigned variable a then (unassigned, shortest)
  else (unassigned ++ [variable],
        match shortest with
        | None | Some 0 => Some (List.length (d variable))
        | Some s =>
            if List.length (d variable) <? s
            then Some (List.length (d variable))
            else Some s
        end).

Definition scan_unassigned (a : Assignment) : list Var * option nat :=
  fold_left (scan_step a) (variables cw) ([], None).

Definition len_is (n : nat) (shortest : option nat) : bool :=
  match shortest with
  | Some s => n =? s
  | None => false
  end.

Definition best_vars (unassigned : list Var) (shortest : option nat)
    : list (Var * nat) :=
  map (fun v => (v, List.length (neighbors cw v)))
      (filter (fun v => len_is (List.length (d v)) shortest) unassigned).

Definition select_unassigned_variable (a : Assignment) : res Var :=
  let '(unassigned, shortest) := scan_unassigned a in
  match rev (sort_by snd (best_vars unassigned shortest)) with
  | [] => Raise IndexError
  | (v, _) :: _ => Ret v
  end.

End Heuristics.

(** ** Backtracking search *)

(** The state [backtrack] runs in: [self.domains] and the one dict that the
    call, its recursive calls and its caller all share. Every [return] of
    [backtrack] hands back that same dict, so the value returned is the
    [assignment] of the final state. *)
Record State : Type := mkState {
  domains : Domains;
  assignment : Assignment
}.

Definition set_assignment (s : State) (a : Assignment) : State :=
  mkState (domains s) a.

(** [backtrack]: the loop [for word in ...] over the candidate words [ws]
    of the selected slot; [rec] is the recursive call. The dict [result]
    that the recursive call returns is the dict [assignment] itself, so
    [assignment.pop(variable)] acts on the state that call left. *)
Fixpoint try_words (rec : State -> res State) (variable : Var)
    (ws : list word) (s : State) : res State :=
  match ws with
  | [] => Ret s
  | w :: ws' =>
      let s1 := set_assignment s (dict_set variable w (assignment s)) in
      ok <- consistent (assignment s1) ;;
      if ok then
        result <- rec s1 ;;
        c <- assignment_complete (assignment result) ;;
        if c then Ret result
        else
          a' <- dict_pop variable (assignment result) ;;
          try_words rec variable ws' (set_assignment result a')
      else
        a' <- dict_pop variable (assignment s1) ;;
        try_words rec variable ws' (set_assignment s1 a')
  end.

Fixpoint backtrack (fuel : nat) (s : State) : res State :=
  match fuel with
  | 0 => Diverge
  | S fuel' =>
      c <- assignment_complete (assignment s) ;;
      if c then Ret s
      else
        variable <- select_unassigned_variable (domains s) (assignment s) ;;
        try_words (backtrack fuel') variable (domains s variable) s
  end.

(** Recursion depth of [backtrack] is at most one call per slot plus the
    call that finds the assignment complete. *)
Definition backtrack_fuel : nat := S (List.length (variables cw)).

(** [solve]: the value returned is a dict in every case; [Some] marks a
    value that is not Python's [None]. *)
Definition solve : res (option Assignment) :=
  d1 <- enforce_node_consistency (init_domains cw) ;;
  '(_, d2) <- ac3 None d1 ;;
  s <- backtrack backtrack_fuel (mkState d2 []) ;;
  Ret (Some (assignment s)).

End Creator.

(** ** The search as the specification words it *)

Section Specified.

Variable cw : Crossword.

(** The specification's step 3 of [backtrack]: "for each candidate word in
    that slot's domain, in the order produced by [order_domain_values]".
    This variant follows those words and differs from [backtrack] in the
    list the loop runs over, and in nothing else. *)
Fixpoint backtrack_lcv (fuel : nat) (s : State) : res State :=
  match fuel with
  | 0 => Diverge
  | S fuel' =>
      c <- assignment_complete cw (assignment s) ;;
      if c then Ret s
      else
        variable <- select_unassigned_variable cw (domains s) (assignment s) ;;
        candidates <- order_domain_values cw (domains s) variable
                                          (assignment s) ;;
        try_words cw (backtrack_lcv fuel') variable candidates s
  end.

Definition solve_lcv : res (option Assignment) :=
  d1 <- enforce_node_consistency cw (init_domains cw) ;;
  '(_, d2) <- ac3 cw None d1 ;;
  s <- backtrack_lcv (backtrack_fuel cw) (mkState d2 []) ;;
  Ret (Some (assignment s)).

(** ** Properties the claims speak of *)

(** The invariants of the structural model (spec, section 3): slots and
    words form sets, a recorded overlap index falls inside its slot, and
    the entries for (A,B) and (B,A) name the same cell with the indices
    swapped. *)
Record wf_crossword : Prop := mkWf {
  wf_variables : NoDup (variables cw);
  wf_words : NoDup (words cw);
  wf_range : forall x y i j,
      overlaps cw x y = Some (i, j) -> i < var_length x /\ j < var_length y;
  wf_sym : forall x y i j,
      overlaps cw x y = Some (i, j) -> overlaps cw y x = Some (j, i)
}.

(** Every word left in a slot's domain has the slot's length. *)
Definition node_consistent (d : Domains) : Prop :=
  forall v w, In v (variables cw) -> In w (d v) -> String.length w = var_length v.

(** Every domain is a set. *)
Definition domains_are_sets (d : Domains) : Prop :=
  forall v, In v (variables cw) -> NoDup (d v).

(** [d'] is pointwise included in [d]. *)
Definition shrinks (d' d : Domains) : Prop :=
  forall v w, In w (d' v) -> In w (d v).

(** Word [w] of slot [x] has a partner in the domain of [y]. *)
Definition supported (d : Domains) (x y : Var) (w : word) : Prop :=
  forall i j, overlaps cw x y = Some (i, j) ->
    exists w', In w' (d y) /\
               exists c, String.get i w = Some c /\ String.get j w' = Some c.

Definition arc_consistent (d : Domains) : Prop :=
  forall x y w, In x (variables cw) -> In y (variables cw) ->
    In w (d x) -> supported d x y w.

(** The validator's three conditions. *)
Definition lengths_match (a : Assignment) : Prop :=
  forall v w, In (v, w) a -> String.length w = var_length v.

Definition overlaps_agree (a : Assignment) : Prop :=
  forall v n wv wn i j,
    In (v, wv) a -> In (n, wn) a -> In n (neighbors cw v) ->
    overlaps cw v n = Some (i, j) ->
    String.get i wv = String.get j wn.

Definition all_distinct (a : Assignment) : Prop :=
  List.length (nodup string_dec (values a)) = List.length (values a).

(** The set [distinct] of [consistent] after the words [ws] were added. *)
Definition add_all (ws : list string) (s : set string) : set string :=
  fold_left (fun s w => set_add string_dec w s) ws s.

(** The test [consistent] makes for one assigned slot and one neighbor. *)
Definition pair_agrees (a : Assignment) (v n : Var) : Prop :=
  exists wv wn i j c,
    lookup a v = Ret wv /\ lookup a n = Ret wn /\
    overlaps cw v n = Some (i, j) /\
    String.get i wv = Some c /\ String.get j wn = Some c.

(** What a call of [backtrack] may change: it leaves the domain store
    alone; it hands back the assignment it was given unless it hands back a
    complete one; every entry it adds pairs a slot with a word of that
    slot's domain. *)
Definition frame_ok (s s' : State) : Prop :=
  domains s' = domains s
  /\ (assignment_complete cw (assignment s') = Ret true
      \/ assignment s' = assignment s)
  /\ (forall v w, In (v, w) (assignment s') ->
                  In (v, w) (assignment s) \/ In w (domains s v)).

(** The states in which the search calls [backtrack]: the domains are node
    consistent and the assignment is a consistent dict over slots of the
    crossword. *)
Definition search_ready (s : State) : Prop :=
  node_consistent (domains s)
  /\ NoDup (keys (assignment s))
  /\ incl (keys (assignment s)) (variables cw)
  /\ consistent cw (assignment s) = Ret true.

(** Every arc of a worklist joins two slots of the crossword. *)
Definition arcs_in_puzzle (arcs : list arc) : Prop :=
  forall a, In a arcs -> In (fst a) (variables cw) /\ In (snd a) (variables cw).

(** Slots of the crossword not yet assigned. *)
Definition unassigned_vars (a : Assignment) : list Var :=
  filter (fun v => negb (assigned v a)) (variables cw).

End Specified.

(** ** Concrete puzzles *)

(** An overlap relation given by its finite table of entries. *)
Definition overlaps_of_table (t : list (arc * (nat * nat))) (x y : Var)
    : option (nat * nat) :=
  match find (fun e => if arc_eq_dec (fst e) (x, y) then true else false) t with
  | Some e => Some (snd e)
  | None => None
  end.

Definition pair_eqb (p q : nat * nat) : bool :=
  (fst p =? fst q) && (snd p =? snd q).

Definition wf_table (t : list (arc * (nat * nat))) : bool :=
  forallb (fun e =>
             let '((x, y), (i, j)) := e in
             (i <? var_length x) && (j <? var_length y)
             && match overlaps_of_table t x y, overlaps_of_table t y x with
                | Some p, Some q => pair_eqb p (i, j) && pair_eqb q (j, i)
                | _, _ => false
                end) t.

(** A three-letter ACROSS slot at the top-left corner and a three-letter
    DOWN slot through its middle cell:
<<
      _ _ _
      # _ #
      # _ #
>>
    the second letter of the first is the first letter of the second. *)
Definition slot_across : Var := mkVar 0 0 ACROSS 3.
Definition slot_down : Var := mkVar 0 1 DOWN 3.

Definition cross_table : list (arc * (nat * nat)) :=
  [((slot_across, slot_down), (1, 0)); ((slot_down, slot_across), (0, 1))].

Definition cross (ws : list word) : Crossword :=
  mkCrossword [slot_across; slot_down] ws (overlaps_of_table cross_table).

(** The same puzzle with its two slots iterated in the other order. *)
Definition cross_rev (ws : list word) : Crossword :=
  mkCrossword [slot_down; slot_across] ws (overlaps_of_table cross_table).

(** A single three-letter slot with no crossing. *)
Definition single (ws : list word) : Crossword :=
  mkCrossword [slot_across] ws (fun _ _ => None).

Definition cross_cat_arc_dog : Crossword := cross ["cat"; "arc"; "dog"]%string.
Definition cross_cat_dog : Crossword := cross ["cat"; "dog"]%string.
Definition cross_five : Crossword :=
  cross ["cot"; "cat"; "arc"; "ace"; "oar"]%string.
Definition single_ab : Crossword := single ["ab"]%string.
Definition single_apt : Crossword := single ["ab"; "apt"]%string.

(** The domains of the two slots of [cross], for display. *)
Definition cross_view (d : Domains) : set word * set word :=
  (d slot_across, d slot_down).

(** The domain store after [enforce_node_consistency] and [ac3], with the
    value [ac3] returned. *)
Definition propagate (cw : Crossword) : res (bool * Domains) :=
  d1 <- enforce_node_consistency cw (init_domains cw) ;;
  ac3 cw None d1.

Definition propagate_view (cw : Crossword) : res (bool * (set word * set word)) :=
  '(b, d) <- propagate cw ;; Ret (b, cross_view d).

(** The domain store [solve] hands to the search on a puzzle: what
    [enforce_node_consistency] and [ac3] left. *)
Definition propagated (cw : Crossword) : Domains :=
  match propagate cw with
  | Ret (_, d) => d
  | _ => init_domains cw
  end.

(** An assignment over [cross] that gives the ACROSS slot a word too short
    to reach the crossing cell; the DOWN slot was assigned first. *)
Definition short_across : Assignment :=
  [(slot_down, "arc"%string); (slot_across, "c"%string)].

Definition cat_arc : Assignment :=
  [(slot_across, "cat"%string); (slot_down, "arc"%string)].

(** ** Solutions *)

(** A solution of the puzzle over a domain store: a dict that assigns
    every slot of the crossword, and only those, a word of its domain, and
    meets the three conditions [consistent] tests. *)
Definition is_solution (cw : Crossword) (d : Domains) (sol : Assignment)
    : Prop :=
  NoDup (keys sol)
  /\ (forall v, In v (keys sol) <-> In v (variables cw))
  /\ lengths_match sol
  /\ overlaps_agree cw sol
  /\ NoDup (values sol)
  /\ (forall v w, In (v, w) sol -> In w (d v)).

(** No slot of the crossword has an empty domain. *)
Definition no_empty_domain (cw : Crossword) (d : Domains) : Prop :=
  forall v, In v (variables cw) -> d v <> [].

(** ** [letter_grid] *)

(** The 2D array of [letter_grid]: [None] or a letter in every cell. *)
Definition Grid : Type := list (list (option ascii)).

(** [l[n]] on a list. *)
Definition list_get {A : Type} (l : list A) (n : nat) : res A :=
  match nth_error l n with
  | Some x => Ret x
  | None => Raise IndexError
  end.

(** [l[n] = x] on a list. *)
Definition list_set {A : Type} (l : list A) (n : nat) (x : A) : res (list A) :=
  if n <? List.length l then Ret (firstn n l ++ x :: skipn (S n) l)
  else Raise IndexError.

(** [letters[i][j] = c]: the rows are separate lists. *)
Definition grid_set (g : Grid) (i j : nat) (c : ascii) : res Grid :=
  row <- list_get g i ;;
  row' <- list_set row j (Some c) ;;
  list_set g i row'.

(** [[[None for _ in range(width)] for _ in range(height)]] *)
Definition blank_grid (height width : nat) : Grid :=
  repeat (repeat None width) height.

(** The cell of the [k]-th letter of a slot. *)
Definition cell_row (v : Var) (k : nat) : nat :=
  var_i v + match var_direction v with DOWN => k | ACROSS => 0 end.

Definition cell_col (v : Var) (k : nat) : nat :=
  var_j v + match var_direction v with ACROSS => k | DOWN => 0 end.

(** [letter_grid]: the loop [for k in range(len(word))] for one slot. *)
Fixpoint write_letters (v : Var) (w : word) (ks : list nat) (g : Grid)
    : res Grid :=
  match ks with
  | [] => Ret g
  | k :: ks' =>
      c <- str_index w k ;;
      g' <- grid_set g (cell_row v k) (cell_col v k) c ;;
      write_letters v w ks' g'
  end.

(** [letter_grid]: the loop over [assignment.items()]. *)
Fixpoint letter_loop (items : Assignment) (g : Grid) : res Grid :=
  match items with
  | [] => Ret g
  | (v, w) :: items' =>
      g' <- write_letters v w (seq 0 (String.length w)) g ;;
      letter_loop items' g'
  end.

(** [letter_grid]: [height] and [width] are those of the crossword. *)
Definition letter_grid (height width : nat) (a : Assignment) : res Grid :=
  letter_loop a (blank_grid height width).

(** The content of cell ([r], [c]) of a grid, when it has that cell. *)
Definition grid_cell (g : Grid) (r c : nat) : option (option ascii) :=
  match nth_error g r with
  | Some row => nth_error row c
  | None => None
  end.

(** Slot [v] with word [w] puts letter [ch] into cell ([r], [c]). *)
Definition writes (v : Var) (w : word) (r c : nat) (ch : ascii) : Prop :=
  exists k, String.get k w = Some ch /\ cell_row v k = r /\ cell_col v k = c.

(** Every letter of every assigned word falls inside the grid. *)
Definition fits_grid (height width : nat) (a : Assignment) : Prop :=
  forall v w k, In (v, w) a -> k < String.length w ->
    cell_row v k < height /\ cell_col v k < width.

(** ** Stores reached on the concrete puzzles *)

(** The store [enforce_node_consistency] leaves on a fresh creator. *)
Definition node_store (cw : Crossword) : Domains :=
  match enforce_node_consistency cw (init_domains cw) with
  | Ret d => d
  | _ => init_domains cw
  end.

(** The store [revise(x, y)] leaves. *)
Definition revised_store (cw : Crossword) (x y : Var) (d : Domains) : Domains :=
  match revise cw x y d with
  | Ret (_, d') => d'
  | _ => d
  end.

Definition cot_oar : Assignment :=
  [(slot_across, "cot"%string); (slot_down, "oar"%string)].

(** What a grid shows, against a record [W] of the letters written so far:
    the grid has [height] rows of [width] cells, a cell nothing was written
    to holds [None], and any other cell holds a letter written to it. *)
Definition grid_shows (height width : nat) (W : nat -> nat -> ascii -> Prop)
    (g : Grid) : Prop :=
  List.length g = height
  /\ Forall (fun row => List.length row = width) g
  /\ forall r c, r < height -> c < width ->
       (grid_cell g r c = Some None /\ forall ch, ~ W r c ch)
       \/ (exists ch, grid_cell g r c = Some (Some ch) /\ W r c ch).

(** Some entry of the assignment puts letter [ch] into cell ([r], [c]). *)
Definition written (a : Assignment) (r c : nat) (ch : ascii) : Prop :=
  exists v w, In (v, w) a /\ writes v w r c ch.

(** Every word of slot [x] has a partner in the domain of slot [y]. *)
Definition arc_supported (cw : Crossword) (d : Domains) (x y : Var) : Prop :=
  forall w, In w (d x) -> supported cw d x y w.

(** A worklist of arcs between distinct slots of the crossword. *)
Definition proper_arcs (cw : Crossword) (arcs : list (Var * Var)) : Prop :=
  forall x y, In (x, y) arcs ->
    x <> y /\ In x (variables cw) /\ In y (variables cw).

(** The array [letter_grid] builds for "cat" across and "arc" down. *)
Definition cat_arc_grid : Grid :=
  [[Some "c"; Some "a"; Some "t"];
   [None; Some "r"; None];
   [None; Some "c"; None]]%char.

(** ** The calls [solve] makes *)

(** A call of a method of the creator; a call of [backtrack] comes with
    the domain store it finds and the assignment it is given. *)
Inductive call : Type :=
| CallEnforceNodeConsistency
| CallAc3
| CallBacktrack (d : Domains) (a : Assignment).

(** A computation together with the calls it made, in order. *)
Definition logged (A : Type) : Type := (list call * res A)%type.

Definition bind_logged {A B : Type} (m : logged A) (k : A -> logged B)
    : logged B :=
  match snd m with
  | Ret a => (fst m ++ fst (k a), snd (k a))
  | Raise e => (fst m, Raise e)
  | Diverge => (fst m, Diverge)
  end.

(** [solve], statement by statement as in the source, each of the three
    calls it makes entered in the record:
<<
      self.enforce_node_consistency()
      self.ac3()
      return self.backtrack(dict())
>>
    The value [ac3] returns is dropped; only the store it left is used. *)
Definition solve_logged (cw : Crossword) : logged (option Assignment) :=
  bind_logged ([CallEnforceNodeConsistency],
               enforce_node_consistency cw (init_domains cw))
    (fun d1 =>
  bind_logged ([CallAc3], ac3 cw None d1)
    (fun r =>
  bind_logged ([CallBacktrack (snd r) []],
               backtrack cw (backtrack_fuel cw) (mkState (snd r) []))
    (fun s => ([], Ret (Some (assignment s)))))).

Definition is_search (c : call) : bool :=
  match c with
  | CallBacktrack _ _ => true
  | _ => false
  end.

(** Some call of the record is a call of [backtrack]. *)
Definition searched (calls : list call) : bool := existsb is_search calls.

(** The specification's reading of a failed propagation: the search engine
    is not invoked. *)
Definition skips_search_after_failure (cw : Crossword) : Prop :=
  forall d, propagate cw = Ret (false, d) ->
    searched (fst (solve_logged cw)) = false.

(** ** Values ruled out *)

(** Word [w] at index [i] and word [w'] at index [j] carry different
    letters. *)
Definition differ (i j : nat) (w w' : word) : bool :=
  match String.get i w, String.get j w' with
  | Some c1, Some c2 => negb (ascii_eqb c1 c2)
  | _, _ => false
  end.

(** Choosing [w] for slot [var] rules out [w'] for slot [n]: the two slots
    overlap and the words disagree on the shared cell. *)
Definition rules_out (cw : Crossword) (var n : Var) (w w' : word) : bool :=
  match overlaps cw var n with
  | Some (i, j) => differ i j w w'
  | None => false
  end.

(** The number of values word [w] of slot [var] rules out: over every
    neighbor of [var] with no entry in the assignment, the words of that
    neighbor's domain that [w] rules out. *)
Definition ruled_out_count (cw : Crossword) (d : Domains) (a : Assignment)
    (var : Var) (w : word) : nat :=
  list_sum
    (map (fun n => List.length (filter (rules_out cw var n w) (d n)))
         (filter (fun n => negb (assigned n a)) (neighbors cw var))).

(** * Properties *)

(** ** Outcomes *)

Lemma bind_ret_inv (A B : Type) (m : res A) (k : A -> res B) (b : B) :
  bind m k = Ret b -> exists a, m = Ret a /\ k a = Ret b.
Proof.
  destruct m as [a | e | ]; simpl; intro H; try discriminate.
  exists a; split; [reflexivity | exact H].
Qed.

Ltac inv_bind H :=
  let x := fresh "x" in
  let Hx := fresh "Hx" in
  apply bind_ret_inv in H; destruct H as (x & Hx & H).

Ltac inv_ret H := injection H as H; subst.

(** ** Sets: [remove] and the loop of removals *)

Section RemoveEach.

Context {A : Type}.
Variable dec : forall x y : A, {x = y} + {x <> y}.

Lemma py_remove_ret (x : A) (s s' : set A) :
  py_remove dec x s = Ret s' -> In x s /\ s' = set_remove dec x s.
Proof.
  unfold py_remove. destruct (set_mem dec x s) eqn:E; intro H; try discriminate.
  inv_ret H. split; [ | reflexivity].
  apply (set_mem_correct1 dec). exact E.
Qed.

Lemma py_remove_present (x : A) (s : set A) :
  In x s -> py_remove dec x s = Ret (set_remove dec x s).
Proof.
  intro H. unfold py_remove. now rewrite (set_mem_correct2 dec _ _ H).
Qed.

Lemma set_remove_length (x : A) (s : set A) :
  In x s -> S (List.length (set_remove dec x s)) = List.length s.
Proof.
  induction s as [ | y s IH]; simpl; [intros [] | ].
  intro H. destruct (dec x y) as [E | N]; simpl; [reflexivity | ].
  destruct H as [E | H]; [congruence | ]. now rewrite IH.
Qed.

Lemma remove_each_incl (xs : list A) :
  forall s s', remove_each dec xs s = Ret s' -> incl s' s.
Proof.
  induction xs as [ | x xs IH]; simpl; intros s s' H.
  - inv_ret H. apply incl_refl.
  - inv_bind H. apply py_remove_ret in Hx as [_ ->].
    intros y Hy. apply (set_remove_1 dec y x). now apply (IH _ _ H).
Qed.

Lemma remove_each_keeps (xs : list A) :
  forall s s' y, remove_each dec xs s = Ret s' ->
    In y s -> ~ In y xs -> In y s'.
Proof.
  induction xs as [ | x xs IH]; simpl; intros s s' y H Hs Hn.
  - now inv_ret H.
  - inv_bind H. apply py_remove_ret in Hx as [_ ->].
    apply (IH _ _ y H).
    + apply set_remove_3; [exact Hs | ]. intros ->. apply Hn. now left.
    + intro Hy. apply Hn. now right.
Qed.

Lemma remove_each_nodup (xs : list A) :
  forall s s', NoDup s -> remove_each dec xs s = Ret s' -> NoDup s'.
Proof.
  induction xs as [ | x xs IH]; simpl; intros s s' Hs H.
  - now inv_ret H.
  - inv_bind H. apply py_remove_ret in Hx as [_ ->].
    apply (IH _ _ (set_remove_nodup dec x Hs) H).
Qed.

Lemma remove_each_drops (xs : list A) :
  forall s s' y, NoDup s -> remove_each dec xs s = Ret s' ->
    In y xs -> ~ In y s'.
Proof.
  induction xs as [ | x xs IH]; simpl; intros s s' y Hs H Hy; [destruct Hy | ].
  inv_bind H. apply py_remove_ret in Hx as [_ ->].
  destruct (in_dec dec y xs) as [Hin | Hout].
  - apply (IH _ _ y (set_remove_nodup dec x Hs) H Hin).
  - destruct Hy as [-> | Hy]; [ | contradiction].
    intro Hy. apply (remove_each_incl _ _ _ H) in Hy.
    now apply (set_remove_2 dec Hs) in Hy.
Qed.

Lemma remove_each_total (xs : list A) :
  forall s, NoDup xs -> incl xs s -> exists s', remove_each dec xs s = Ret s'.
Proof.
  induction xs as [ | x xs IH]; simpl; intros s Hn Hi.
  - now exists s.
  - inversion Hn as [ | ? ? Hx Hn']; subst.
    rewrite py_remove_present by (apply Hi; now left). simpl.
    apply IH; [exact Hn' | ].
    intros y Hy. apply set_remove_3.
    + apply Hi. now right.
    + intros ->. contradiction.
Qed.

Lemma remove_each_length (xs : list A) :
  forall s s', remove_each dec xs s = Ret s' ->
    List.length s' + List.length xs = List.length s.
Proof.
  induction xs as [ | x xs IH]; simpl; intros s s' H.
  - inv_ret H. lia.
  - inv_bind H. apply py_remove_ret in Hx as [Hin ->].
    apply IH in H. apply set_remove_length in Hin. lia.
Qed.

End RemoveEach.

(** ** The assignment dict *)

Lemma assigned_in (v : Var) (a : Assignment) :
  assigned v a = true <-> In v (keys a).
Proof.
  induction a as [ | [k w] a IH]; simpl.
  - split; [discriminate | intros []].
  - destruct (Var_eq_dec k v) as [-> | N].
    + split; auto.
    + rewrite IH. split; [now right | intros [E | H]; [congruence | exact H]].
Qed.

Lemma not_assigned_in (v : Var) (a : Assignment) :
  assigned v a = false <-> ~ In v (keys a).
Proof.
  rewrite <- assigned_in. destruct (assigned v a); split; congruence.
Qed.

Lemma lookup_in (a : Assignment) (v : Var) (w : word) :
  lookup a v = Ret w -> In (v, w) a.
Proof.
  induction a as [ | [k w'] a IH]; simpl; [discriminate | ].
  destruct (Var_eq_dec k v) as [-> | N]; intro H.
  - inv_ret H. now left.
  - right. now apply IH.
Qed.

Lemma in_lookup (a : Assignment) (v : Var) (w : word) :
  NoDup (keys a) -> In (v, w) a -> lookup a v = Ret w.
Proof.
  induction a as [ | [k w'] a IH]; simpl; intros Hn H; [destruct H | ].
  inversion Hn as [ | ? ? Hk Hn']; subst.
  destruct (Var_eq_dec k v) as [-> | N].
  - destruct H as [H | H]; [congruence | ].
    exfalso. apply Hk. change v with (fst (v, w)). now apply in_map.
  - destruct H as [H | H]; [congruence | now apply IH].
Qed.

Lemma lookup_assigned (a : Assignment) (v : Var) :
  assigned v a = true -> exists w, lookup a v = Ret w.
Proof.
  induction a as [ | [k w'] a IH]; simpl; [discriminate | ].
  destruct (Var_eq_dec k v); eauto.
Qed.

Lemma dict_set_fresh (v : Var) (w : word) (a : Assignment) :
  assigned v a = false -> dict_set v w a = a ++ [(v, w)].
Proof.
  induction a as [ | [k w'] a IH]; simpl; [reflexivity | ].
  destruct (Var_eq_dec k v); [discriminate | ].
  intro H. now rewrite IH.
Qed.

Lemma dict_del_fresh (v : Var) (w : word) (a : Assignment) :
  assigned v a = false -> dict_del v (a ++ [(v, w)]) = a.
Proof.
  induction a as [ | [k w'] a IH]; simpl.
  - now destruct (Var_eq_dec v v).
  - destruct (Var_eq_dec k v); [discriminate | ].
    intro H. now rewrite IH.
Qed.

Lemma assigned_app (v : Var) (a b : Assignment) :
  assigned v (a ++ b) = assigned v a || assigned v b.
Proof.
  induction a as [ | [k w'] a IH]; simpl; [reflexivity | ].
  now destruct (Var_eq_dec k v).
Qed.

Lemma dict_pop_set_fresh (v : Var) (w : word) (a : Assignment) :
  assigned v a = false -> dict_pop v (dict_set v w a) = Ret a.
Proof.
  intro H. rewrite (dict_set_fresh _ _ _ H). unfold dict_pop.
  rewrite assigned_app. simpl. destruct (Var_eq_dec v v); [ | congruence].
  rewrite orb_true_r. now rewrite dict_del_fresh.
Qed.

(** ** The stable sort *)

Lemma insert_by_in (A : Type) (key : A -> nat) (x y : A) (l : list A) :
  In y (insert_by key x l) <-> y = x \/ In y l.
Proof.
  induction l as [ | z l IH]; simpl.
  - intuition.
  - destruct (key x <=? key z); simpl; [intuition | ].
    rewrite IH. intuition.
Qed.

Lemma sort_by_in (A : Type) (key : A -> nat) (y : A) (l : list A) :
  In y (sort_by key l) <-> In y l.
Proof.
  induction l as [ | z l IH]; simpl; [reflexivity | ].
  rewrite insert_by_in, IH. intuition.
Qed.

(** ** Strings and worklists *)

Lemma get_in_range (s : string) :
  forall k, k < String.length s -> exists c, String.get k s = Some c.
Proof.
  induction s as [ | c s IH]; simpl; intros k Hk; [lia | ].
  destruct k as [ | k]; [now exists c | ].
  apply IH. lia.
Qed.

Lemma str_index_in_range (s : string) (k : nat) :
  k < String.length s -> exists c, str_index s k = Ret c.
Proof.
  intro Hk. unfold str_index.
  destruct (get_in_range s k Hk) as [c ->]. now exists c.
Qed.

Lemma str_index_ret (s : string) (k : nat) (c : ascii) :
  str_index s k = Ret c <-> String.get k s = Some c.
Proof.
  unfold str_index. destruct (String.get k s); split; congruence.
Qed.

Lemma ascii_eqb_true (a b : ascii) : ascii_eqb a b = true <-> a = b.
Proof.
  unfold ascii_eqb. destruct (ascii_dec a b); split; congruence.
Qed.

Lemma list_pop_some (A : Type) (l l' : list A) (x : A) :
  list_pop l = Some (x, l') -> l = l' ++ [x].
Proof.
  unfold list_pop. destruct (rev l) as [ | y r] eqn:E; intro H; [discriminate | ].
  injection H as <- <-.
  rewrite <- (rev_involutive l), E. reflexivity.
Qed.

Lemma list_pop_none (A : Type) (l : list A) : list_pop l = None -> l = [].
Proof.
  unfold list_pop. destruct (rev l) as [ | y r] eqn:E; intro H; [ | discriminate].
  rewrite <- (rev_involutive l), E. reflexivity.
Qed.

Lemma length_zero_nil (A : Type) (l : list A) :
  (List.length l =? 0) = true -> l = [].
Proof.
  destruct l; simpl; [reflexivity | discriminate].
Qed.

(** ** Domains shrink *)

Lemma shrinks_refl (d : Domains) : shrinks d d.
Proof. intros v w H. exact H. Qed.

Lemma shrinks_trans (d1 d2 d3 : Domains) :
  shrinks d1 d2 -> shrinks d2 d3 -> shrinks d1 d3.
Proof. intros H12 H23 v w H. apply H23, H12, H. Qed.

Lemma shrinks_update (d : Domains) (x : Var) (dom : set word) :
  incl dom (d x) -> shrinks (update d x dom) d.
Proof.
  intros Hi v w. unfold update.
  destruct (Var_eq_dec v x) as [-> | N]; [apply Hi | trivial].
Qed.

Lemma update_same (d : Domains) (x : Var) (dom : set word) :
  update d x dom x = dom.
Proof. unfold update. now destruct (Var_eq_dec x x). Qed.

Lemma update_other (d : Domains) (x v : Var) (dom : set word) :
  v <> x -> update d x dom v = d v.
Proof. intro N. unfold update. now destruct (Var_eq_dec v x). Qed.

Section Consistency.

Variable cw : Crossword.

Lemma node_consistent_shrinks (d d' : Domains) :
  shrinks d' d -> node_consistent cw d -> node_consistent cw d'.
Proof. intros Hs Hn v w Hv Hw. apply Hn; [exact Hv | now apply Hs]. Qed.

(** *** Node consistency *)

Lemma enforce_node_loop_shrinks (vars : list Var) :
  forall d d', enforce_node_loop vars d = Ret d' -> shrinks d' d.
Proof.
  induction vars as [ | var vars IH]; simpl; intros d d' H.
  - inv_ret H. apply shrinks_refl.
  - inv_bind H. apply IH in H.
    eapply shrinks_trans; [exact H | ].
    apply shrinks_update. eapply remove_each_incl; eassumption.
Qed.

Lemma node_removes_in (var : Var) (dom : set word) (w : word) :
  In w (node_removes var dom) <->
  In w dom /\ String.length w <> var_length var.
Proof.
  unfold node_removes. rewrite filter_In, negb_true_iff, Nat.eqb_neq.
  intuition.
Qed.

Lemma enforce_node_loop_correct (vars : list Var) :
  forall d, (forall v, In v vars -> NoDup (d v)) ->
    exists d', enforce_node_loop vars d = Ret d'
      /\ (forall v, NoDup (d v) -> NoDup (d' v))
      /\ (forall v w, In v vars -> In w (d' v) ->
                      String.length w = var_length v).
Proof.
  induction vars as [ | var vars IH]; simpl; intros d Hd.
  - exists d. repeat split; [trivial | intros v w []].
  - assert (Hvar : NoDup (d var)) by (apply Hd; now left).
    destruct (remove_each_total string_dec (node_removes var (d var)) (d var))
      as [dom Hdom].
    { now apply NoDup_filter. }
    { intros w Hw. now apply node_removes_in in Hw. }
    rewrite Hdom. simpl.
    assert (Hnd : NoDup dom) by (eapply remove_each_nodup; eassumption).
    destruct (IH (update d var dom)) as (d' & Hd' & Hsets & Hlen).
    { intros v Hv. destruct (Var_eq_dec v var) as [-> | N].
      - now rewrite update_same.
      - rewrite update_other by exact N. apply Hd. now right. }
    exists d'. split; [exact Hd' | split].
    + intros v Hv. apply Hsets.
      destruct (Var_eq_dec v var) as [-> | N].
      * now rewrite update_same.
      * now rewrite update_other.
    + intros v w Hv Hw.
      destruct (in_dec Var_eq_dec v vars) as [Hin | Hout]; [now apply Hlen | ].
      destruct Hv as [<- | Hv]; [ | contradiction].
      apply (enforce_node_loop_shrinks _ _ _ Hd') in Hw.
      rewrite update_same in Hw.
      destruct (Nat.eq_dec (String.length w) (var_length var)) as [E | N];
        [exact E | exfalso].
      apply (remove_each_drops string_dec _ _ _ w Hvar Hdom); [ | exact Hw].
      apply node_removes_in. split; [ | exact N].
      eapply remove_each_incl; eassumption.
Qed.

Lemma enforce_node_consistency_correct (d : Domains) :
  domains_are_sets cw d ->
  exists d', enforce_node_consistency cw d = Ret d'
    /\ shrinks d' d /\ domains_are_sets cw d' /\ node_consistent cw d'.
Proof.
  intro Hd. destruct (enforce_node_loop_correct (variables cw) d Hd)
    as (d' & Hd' & Hsets & Hlen).
  exists d'. split; [exact Hd' | split; [ | split]].
  - eapply enforce_node_loop_shrinks; eassumption.
  - intros v Hv. apply Hsets, Hd, Hv.
  - intros v w Hv Hw. now apply Hlen.
Qed.

(** *** [revise] *)

Lemma has_match_total (i j : nat) (w : word) (dy : list word) :
  i < String.length w ->
  (forall w', In w' dy -> j < String.length w') ->
  exists b, has_match i j w dy = Ret b.
Proof.
  intros Hi. induction dy as [ | aword dy IH]; simpl; intro Hj.
  - now exists false.
  - destruct (str_index_in_range w i Hi) as [c1 ->].
    destruct (str_index_in_range aword j) as [c2 ->]; [apply Hj; now left | ].
    simpl. destruct (ascii_eqb c1 c2); [now exists true | ].
    apply IH. intros w' Hw'. apply Hj. now right.
Qed.

Lemma revise_scan_ret (i j : nat) (dy dx : list word) :
  forall removes revised r b,
    revise_scan i j dy dx removes revised = Ret (r, b) ->
    (forall w, In w r -> In w removes \/ In w dx)
    /\ (NoDup removes -> NoDup r)
    /\ ((revised = true <-> removes <> []) -> (b = true <-> r <> [])).
Proof.
  induction dx as [ | w dx IH]; simpl; intros removes revised r b H.
  - injection H as <- <-. repeat split; auto; tauto.
  - inv_bind H. destruct x.
    + apply IH in H as (H1 & H2 & H3). repeat split; auto.
      * intros w' Hw'. destruct (H1 w' Hw'); auto.
      * now apply H3.
      * now apply H3.
    + apply IH in H as (H1 & H2 & H3). split; [ | split].
      * intros w' Hw'. destruct (H1 w' Hw') as [Hs | Hs]; auto.
        apply set_add_elim in Hs as [-> | Hs]; auto.
      * intro Hn. apply H2. now apply set_add_nodup.
      * intros _. apply H3. split; [ | reflexivity].
        intros _. apply set_add_not_empty.
Qed.

Lemma revise_scan_total (i j : nat) (dy dx : list word) :
  (forall w, In w dx -> i < String.length w) ->
  (forall w', In w' dy -> j < String.length w') ->
  forall removes revised,
    exists r b, revise_scan i j dy dx removes revised = Ret (r, b).
Proof.
  intros Hi Hj. induction dx as [ | w dx IH]; simpl; intros removes revised.
  - now exists removes, revised.
  - destruct (has_match_total i j w dy) as [m ->]; [apply Hi; now left | exact Hj | ].
    simpl. destruct m; apply IH; intros w' Hw'; apply Hi; now right.
Qed.

Lemma revise_ret (x y : Var) (d d' : Domains) (b : bool) :
  revise cw x y d = Ret (b, d') ->
  shrinks d' d
  /\ (forall v, NoDup (d v) -> NoDup (d' v))
  /\ (forall v, List.length (d' v) <= List.length (d v))
  /\ (b = true -> List.length (d' x) < List.length (d x)).
Proof.
  unfold revise. destruct (overlaps cw x y) as [[i j] | ]; intro H.
  - inv_bind H. destruct x0 as [removes revised]. inv_bind H.
    injection H as <- <-.
    apply revise_scan_ret in Hx as (_ & _ & Hb).
    assert (Hi : incl x0 (d x)) by (eapply remove_each_incl; eassumption).
    assert (Hl := remove_each_length string_dec _ _ _ Hx0).
    split; [now apply shrinks_update | split; [ | split]].
    + intros v Hv. destruct (Var_eq_dec v x) as [-> | N].
      * rewrite update_same. eapply remove_each_nodup; eassumption.
      * now rewrite update_other.
    + intro v. destruct (Var_eq_dec v x) as [-> | N].
      * rewrite update_same. lia.
      * rewrite update_other by exact N. lia.
    + intro Hr. rewrite update_same.
      assert (removes <> []) as Hne by (apply Hb; [ | exact Hr]; split; congruence).
      destruct removes; [congruence | simpl in Hl; lia].
  - injection H as <- <-.
    split; [apply shrinks_refl | split; [trivial | split; [intro; lia | discriminate]]].
Qed.

Lemma revise_shrinks (x y : Var) (d d' : Domains) (b : bool) :
  revise cw x y d = Ret (b, d') -> shrinks d' d.
Proof. intro H. now apply revise_ret in H. Qed.

Lemma revise_total (x y : Var) (d : Domains) :
  (forall i j, overlaps cw x y = Some (i, j) ->
               i < var_length x /\ j < var_length y) ->
  (forall w, In w (d x) -> String.length w = var_length x) ->
  (forall w, In w (d y) -> String.length w = var_length y) ->
  NoDup (d x) ->
  exists b d', revise cw x y d = Ret (b, d').
Proof.
  intros Hr Hx Hy Hn. unfold revise.
  destruct (overlaps cw x y) as [[i j] | ]; [ | now exists false, d].
  destruct (Hr i j eq_refl) as [Hi Hj].
  destruct (revise_scan_total i j (d y) (d x)) with (removes := @nil word)
    (revised := false) as (r & b & Hs).
  { intros w Hw. rewrite (Hx w Hw). exact Hi. }
  { intros w Hw. rewrite (Hy w Hw). exact Hj. }
  rewrite Hs. simpl.
  destruct (revise_scan_ret _ _ _ _ _ _ _ _ Hs) as (Hin & Hnd & _).
  destruct (remove_each_total string_dec r (d x)) as [dom ->].
  - apply Hnd. constructor.
  - intros w Hw. destruct (Hin w Hw) as [[] | H]; exact H.
  - simpl. now exists b, (update d x dom).
Qed.

(** *** The worklist of [ac3] *)

Lemma initial_arcs_inner_in (var : Var) (vars : list Var) :
  In var (variables cw) -> incl vars (variables cw) ->
  forall arcs, arcs_in_puzzle cw arcs ->
    arcs_in_puzzle cw (initial_arcs_inner var vars arcs).
Proof.
  intros Hvar. unfold initial_arcs_inner.
  induction vars as [ | var2 vars IH]; simpl; intros Hi arcs Ha; [exact Ha | ].
  apply IH; [intros v Hv; apply Hi; now right | ].
  destruct (Var_eq_dec var var2); [exact Ha | ].
  destruct (in_dec arc_eq_dec (var2, var) arcs); [exact Ha | ].
  intros a Hin. apply in_app_or in Hin as [Hin | [<- | []]]; [now apply Ha | ].
  simpl. split; [exact Hvar | apply Hi; now left].
Qed.

Lemma initial_arcs_in : arcs_in_puzzle cw (initial_arcs cw).
Proof.
  unfold initial_arcs.
  assert (G : forall vars arcs, incl vars (variables cw) ->
            arcs_in_puzzle cw arcs ->
            arcs_in_puzzle cw
              (fold_left (fun arcs var =>
                            initial_arcs_inner var (variables cw) arcs)
                         vars arcs)).
  { induction vars as [ | var vars IH]; simpl; intros arcs Hi Ha; [exact Ha | ].
    apply IH; [intros v Hv; apply Hi; now right | ].
    apply initial_arcs_inner_in; [apply Hi; now left | apply incl_refl | exact Ha]. }
  apply G; [apply incl_refl | intros a []].
Qed.

Lemma neighbors_in (x n : Var) :
  In n (neighbors cw x) ->
  In n (variables cw) /\ n <> x /\ exists p, overlaps cw n x = Some p.
Proof.
  unfold neighbors. rewrite filter_In, andb_true_iff, negb_true_iff.
  intros (Hn & Hne & Ho). split; [exact Hn | split].
  - now destruct (Var_eq_dec n x).
  - destruct (overlaps cw n x) as [p | ]; [now exists p | discriminate].
Qed.

Lemma neighbors_length (x : Var) :
  List.length (neighbors cw x) <= List.length (variables cw).
Proof. apply filter_length_le. Qed.

Lemma enqueue_fold_spec (x y : Var) (ns : list Var) :
  In x (variables cw) -> incl ns (variables cw) ->
  forall arcs, arcs_in_puzzle cw arcs ->
    arcs_in_puzzle cw
      (fold_left (fun arcs neighbor =>
                    if Var_eq_dec neighbor y then arcs
                    else arcs ++ [(neighbor, x)]) ns arcs)
    /\ List.length
         (fold_left (fun arcs neighbor =>
                       if Var_eq_dec neighbor y then arcs
                       else arcs ++ [(neighbor, x)]) ns arcs)
       <= List.length arcs + List.length ns.
Proof.
  intro Hx. induction ns as [ | n ns IH]; simpl; intros Hi arcs Ha.
  - split; [exact Ha | lia].
  - assert (Hi' : incl ns (variables cw)) by (intros v Hv; apply Hi; now right).
    destruct (Var_eq_dec n y).
    + destruct (IH Hi' arcs Ha) as [H1 H2]. split; [exact H1 | lia].
    + destruct (IH Hi' (arcs ++ [(n, x)])) as [H1 H2].
      * intros a Hin. apply in_app_or in Hin as [Hin | [<- | []]]; [now apply Ha | ].
        simpl. split; [apply Hi; now left | exact Hx].
      * split; [exact H1 | ]. rewrite length_app in H2. simpl in H2. lia.
Qed.

Lemma enqueue_neighbors_spec (x y : Var) (arcs : list arc) :
  In x (variables cw) -> arcs_in_puzzle cw arcs ->
  arcs_in_puzzle cw (enqueue_neighbors cw x y arcs)
  /\ List.length (enqueue_neighbors cw x y arcs)
     <= List.length arcs + List.length (neighbors cw x).
Proof.
  intros Hx Ha. unfold enqueue_neighbors.
  apply enqueue_fold_spec; [exact Hx | | exact Ha].
  intros n Hn. now apply neighbors_in in Hn.
Qed.

(** *** The measure of [ac3] *)

Lemma list_sum_le (f g : Var -> nat) (vars : list Var) :
  (forall v, f v <= g v) ->
  list_sum (map f vars) <= list_sum (map g vars).
Proof.
  intro H. induction vars as [ | v vars IH]; simpl; [lia | ].
  specialize (H v). lia.
Qed.

Lemma list_sum_lt (f g : Var -> nat) (vars : list Var) (x : Var) :
  (forall v, f v <= g v) -> In x vars -> f x < g x ->
  list_sum (map f vars) < list_sum (map g vars).
Proof.
  intros H Hx Hlt. induction vars as [ | v vars IH]; simpl; [destruct Hx | ].
  destruct Hx as [-> | Hx].
  - pose proof (list_sum_le f g vars H). lia.
  - specialize (IH Hx). specialize (H v). lia.
Qed.

(** The invariant of the loop of [ac3]: domains are sets of words of the
    right length, and the worklist holds arcs of the puzzle. *)
Lemma ac3_loop_correct (Hwf : wf_crossword cw) (fuel : nat) :
  forall arcs d,
    arcs_in_puzzle cw arcs -> node_consistent cw d -> domains_are_sets cw d ->
    List.length arcs + S (List.length (variables cw)) * total_size cw d < fuel ->
    exists b d', ac3_loop cw fuel arcs d = Ret (b, d')
      /\ shrinks d' d /\ domains_are_sets cw d'
      /\ (b = false -> exists x, In x (variables cw) /\ d' x = []).
Proof.
  induction fuel as [ | fuel IH]; intros arcs d Ha Hn Hs Hf; [lia | ].
  simpl. destruct (list_pop arcs) as [[a arcs'] | ] eqn:Hp.
  - apply list_pop_some in Hp. subst arcs.
    destruct a as [x y]. simpl.
    destruct (Ha (x, y)) as [Hx Hy]; [apply in_or_app; right; now left | ].
    simpl in Hx, Hy.
    assert (Ha' : arcs_in_puzzle cw arcs')
      by (intros a Hin; apply Ha, in_or_app; now left).
    destruct (revise_total x y d) as (revised & d' & Hr).
    { intros i j. apply (wf_range cw Hwf). }
    { intros w. now apply Hn. }
    { intros w. now apply Hn. }
    { now apply Hs. }
    rewrite Hr. simpl.
    destruct (revise_ret _ _ _ _ _ Hr) as (Hsh & Hnd & Hle & Hlt).
    assert (Hn' : node_consistent cw d')
      by (eapply node_consistent_shrinks; eassumption).
    assert (Hs' : domains_are_sets cw d') by (intros v Hv; apply Hnd, Hs, Hv).
    rewrite length_app in Hf. simpl in Hf.
    assert (Hts : total_size cw d' <= total_size cw d)
      by (apply list_sum_le; exact Hle).
    destruct revised.
    + destruct (List.length (d' x) =? 0) eqn:Hz.
      * exists false, d'. repeat split; trivial.
        intros _. exists x. split; [exact Hx | now apply length_zero_nil].
      * assert (Hts' : total_size cw d' < total_size cw d).
        { apply list_sum_lt with (x := x); [exact Hle | exact Hx | now apply Hlt]. }
        destruct (enqueue_neighbors_spec x y arcs' Hx Ha') as [He1 He2].
        pose proof (neighbors_length x) as Hnl.
        destruct (IH (enqueue_neighbors cw x y arcs') d') as (b & d'' & Hl & Hsh' & Hs'' & Hb);
          trivial.
        { assert (S (List.length (variables cw)) * S (total_size cw d')
                  <= S (List.length (variables cw)) * total_size cw d)
            by (apply Nat.mul_le_mono_l; lia).
          lia. }
        exists b, d''. repeat split; trivial.
        eapply shrinks_trans; eassumption.
    + destruct (IH arcs' d') as (b & d'' & Hl & Hsh' & Hs'' & Hb); trivial.
      { assert (S (List.length (variables cw)) * total_size cw d'
                <= S (List.length (variables cw)) * total_size cw d)
          by (apply Nat.mul_le_mono_l; lia).
        lia. }
      exists b, d''. repeat split; trivial.
      eapply shrinks_trans; eassumption.
  - exists true, d. repeat split; trivial; [apply shrinks_refl | discriminate].
Qed.

Lemma ac3_loop_shrinks (fuel : nat) :
  forall arcs d b d', ac3_loop cw fuel arcs d = Ret (b, d') -> shrinks d' d.
Proof.
  induction fuel as [ | fuel IH]; simpl; intros arcs d b d' H; [discriminate | ].
  destruct (list_pop arcs) as [[a arcs'] | ].
  - inv_bind H. destruct x as [revised d1].
    apply revise_shrinks in Hx.
    destruct revised.
    + destruct (List.length (d1 (fst a)) =? 0).
      * injection H as <- <-. exact Hx.
      * apply IH in H. eapply shrinks_trans; eassumption.
    + apply IH in H. eapply shrinks_trans; eassumption.
  - injection H as <- <-. apply shrinks_refl.
Qed.

Lemma ac3_shrinks (arcs : option (list arc)) (d d' : Domains) (b : bool) :
  ac3 cw arcs d = Ret (b, d') -> shrinks d' d.
Proof. unfold ac3. apply ac3_loop_shrinks. Qed.

Lemma ac3_correct (Hwf : wf_crossword cw) (d : Domains) :
  node_consistent cw d -> domains_are_sets cw d ->
  exists b d', ac3 cw None d = Ret (b, d')
    /\ shrinks d' d /\ domains_are_sets cw d'
    /\ (b = false -> exists x, In x (variables cw) /\ d' x = []).
Proof.
  intros Hn Hs. unfold ac3.
  apply ac3_loop_correct; trivial; [apply initial_arcs_in | ].
  unfold ac3_fuel. lia.
Qed.

End Consistency.

(** ** Counting distinct words *)

Lemma set_add_present (w : string) (s : set string) :
  In w s -> set_add string_dec w s = s.
Proof.
  induction s as [ | x s IH]; simpl; [intros [] | ].
  destruct (string_dec w x) as [E | N]; [reflexivity | ].
  intros [E | H]; [congruence | ]. now rewrite IH.
Qed.

Lemma set_add_absent (w : string) (s : set string) :
  ~ In w s -> set_add string_dec w s = s ++ [w].
Proof.
  induction s as [ | x s IH]; simpl; [reflexivity | ].
  intro H. destruct (string_dec w x) as [E | N].
  - exfalso. apply H. now left.
  - rewrite IH; [reflexivity | ]. intro Hin. apply H. now right.
Qed.

Lemma add_all_length_le (ws : list string) :
  forall s, List.length (add_all ws s) <= List.length s + List.length ws.
Proof.
  unfold add_all.
  induction ws as [ | w ws IH]; simpl; intro s; [lia | ].
  specialize (IH (set_add string_dec w s)).
  destruct (in_dec string_dec w s) as [Hin | Hout].
  - rewrite (set_add_present _ _ Hin) in *. lia.
  - rewrite (set_add_absent _ _ Hout) in *. rewrite length_app in IH.
    simpl in IH. lia.
Qed.

Lemma add_all_length_nodup (ws : list string) :
  forall s, NoDup s ->
    (List.length (add_all ws s) = List.length s + List.length ws
     <-> NoDup (s ++ ws)).
Proof.
  induction ws as [ | w ws IH]; simpl; intros s Hs.
  - rewrite app_nil_r. unfold add_all. simpl. split; [trivial | lia].
  - change (add_all (w :: ws) s) with (add_all ws (set_add string_dec w s)).
    destruct (in_dec string_dec w s) as [Hin | Hout].
    + rewrite (set_add_present _ _ Hin).
      pose proof (add_all_length_le ws s). split; [lia | ].
      intro Hn. apply NoDup_remove_2 in Hn. exfalso. apply Hn.
      apply in_or_app. now left.
    + rewrite (set_add_absent _ _ Hout).
      assert (Hnd : NoDup (s ++ [w])).
      { apply NoDup_app; [exact Hs | repeat constructor; intros [] | ].
        intros x Hx [<- | []]. contradiction. }
      specialize (IH (s ++ [w]) Hnd).
      rewrite length_app, <- app_assoc in IH. simpl in IH.
      split; intro H; [apply IH; lia | apply IH in H; lia].
Qed.

Lemma nodup_length_le (l : list string) :
  List.length (nodup string_dec l) <= List.length l.
Proof.
  induction l as [ | x l IH]; simpl; [lia | ].
  destruct (in_dec string_dec x l); simpl; lia.
Qed.

Lemma all_distinct_nodup (a : Assignment) :
  all_distinct a <-> NoDup (values a).
Proof.
  unfold all_distinct. generalize (values a) as l.
  induction l as [ | x l IH]; simpl.
  - split; [constructor | reflexivity].
  - pose proof (nodup_length_le l).
    destruct (in_dec string_dec x l) as [Hin | Hout]; simpl.
    + split; [lia | ]. intro Hn. inversion Hn. contradiction.
    + split.
      * intro E. constructor; [exact Hout | ]. apply IH. lia.
      * intro Hn. inversion Hn; subst. f_equal. now apply IH.
Qed.

(** ** The validator *)

Section Validator.

Variable cw : Crossword.

Lemma check_neighbors_true (a : Assignment) (v : Var) (ns : list Var) :
  check_neighbors cw a v ns = Ret true <->
  (forall n, In n ns -> assigned n a = true -> pair_agrees cw a v n).
Proof.
  induction ns as [ | n ns IH]; simpl.
  - split; [intros _ n [] | reflexivity].
  - destruct (assigned n a) eqn:Hn.
    + split.
      * intro H. inv_bind H. inv_bind H. inv_bind H. inv_bind H.
        inv_bind H. inv_bind H.
        destruct (ascii_eqb x1 x4) eqn:E; [ | discriminate].
        apply ascii_eqb_true in E. subst x4.
        destruct (overlaps cw v n) as [[i j] | ] eqn:Ho; [ | discriminate].
        simpl in Hx0, Hx3. inv_ret Hx0. inv_ret Hx3. simpl in *.
        apply str_index_ret in Hx1, Hx4.
        intros m [<- | Hm] Hm'.
        -- exists x, x2, i, j, x1. now rewrite Ho.
        -- now apply IH.
      * intro H. destruct (H n (or_introl eq_refl) Hn)
          as (wv & wn & i & j & c & Hv & Hwn & Ho & Hi & Hj).
        rewrite Hv, Ho, Hwn. simpl.
        apply str_index_ret in Hi, Hj. rewrite Hi. simpl. rewrite Hj. simpl.
        replace (ascii_eqb c c) with true
          by (symmetry; now apply ascii_eqb_true).
        apply IH. intros m Hm. apply H. now right.
    + rewrite IH. split.
      * intros H m [<- | Hm] Hm'; [congruence | now apply H].
      * intros H m Hm. apply H. now right.
Qed.

Lemma check_neighbors_total (Hwf : wf_crossword cw) (a : Assignment)
    (v : Var) (wv : string) (ns : list Var) :
  lengths_match a -> lookup a v = Ret wv ->
  (forall n, In n ns -> exists p, overlaps cw n v = Some p) ->
  exists b, check_neighbors cw a v ns = Ret b.
Proof.
  intros Hl Hv. induction ns as [ | n ns IH]; simpl; intro Ho.
  - now exists true.
  - assert (IH' : exists b, check_neighbors cw a v ns = Ret b)
      by (apply IH; intros m Hm; apply Ho; now right).
    destruct (assigned n a) eqn:Hn; [ | exact IH'].
    destruct (Ho n (or_introl eq_refl)) as [[j i] Hp].
    apply (wf_sym cw Hwf) in Hp.
    destruct (wf_range cw Hwf _ _ _ _ Hp) as [Hi Hj].
    destruct (lookup_assigned a n Hn) as [wn Hwn].
    rewrite Hv, Hp, Hwn. simpl.
    destruct (str_index_in_range wv i) as [c1 ->].
    { rewrite (Hl v wv); [exact Hi | now apply lookup_in]. }
    simpl.
    destruct (str_index_in_range wn j) as [c2 ->].
    { rewrite (Hl n wn); [exact Hj | now apply lookup_in]. }
    simpl. destruct (ascii_eqb c1 c2); [exact IH' | now exists false].
Qed.

Lemma consistent_loop_keys (a : Assignment) (Hn : NoDup (keys a)) :
  forall b distinct, incl b a ->
    (consistent_loop cw a (keys b) distinct = Ret true <->
     (forall v w, In (v, w) b ->
        String.length w = var_length v /\
        check_neighbors cw a v (neighbors cw v) = Ret true)
     /\ List.length (add_all (values b) distinct) = List.length a).
Proof.
  induction b as [ | [v w] b IH]; simpl; intros distinct Hi.
  - unfold add_all. simpl. split.
    + intro H. injection H as H. split; [intros v w [] | ].
      now apply Nat.eqb_eq.
    + intros [_ H]. f_equal. now apply Nat.eqb_eq.
  - rewrite (in_lookup a v w Hn) by (apply Hi; now left). simpl.
    assert (Hi' : incl b a) by (intros p Hp; apply Hi; now right).
    destruct (String.length w =? var_length v) eqn:El; simpl.
    + apply Nat.eqb_eq in El.
      destruct (check_neighbors cw a v (neighbors cw v)) as [[ | ] | e | ] eqn:Ec;
        simpl.
      * rewrite (IH _ Hi'). unfold add_all. simpl. split.
        -- intros [H1 H2]. split; [ | exact H2].
           intros v' w' [E | Hin]; [ | now apply H1].
           injection E as <- <-. now split.
        -- intros [H1 H2]. split; [ | exact H2].
           intros v' w' Hin. apply H1. now right.
      * split; [discriminate | ]. intros [H1 _].
        destruct (H1 v w (or_introl eq_refl)) as [_ H]. congruence.
      * split; [discriminate | ]. intros [H1 _].
        destruct (H1 v w (or_introl eq_refl)) as [_ H]. congruence.
      * split; [discriminate | ]. intros [H1 _].
        destruct (H1 v w (or_introl eq_refl)) as [_ H]. congruence.
    + apply Nat.eqb_neq in El. split; [discriminate | ]. intros [H1 _].
      destruct (H1 v w (or_introl eq_refl)) as [H _]. congruence.
Qed.

Lemma consistent_loop_total (Hwf : wf_crossword cw) (a : Assignment) :
  lengths_match a ->
  forall vars distinct, incl vars (keys a) ->
    exists b, consistent_loop cw a vars distinct = Ret b.
Proof.
  intros Hl. induction vars as [ | v vars IH]; simpl; intros distinct Hi.
  - eexists; reflexivity.
  - destruct (lookup_assigned a v) as [w Hw].
    { apply assigned_in. apply Hi. now left. }
    rewrite Hw. simpl.
    destruct (negb (String.length w =? var_length v)); [now exists false | ].
    destruct (check_neighbors_total Hwf a v w (neighbors cw v) Hl Hw) as [ok ->].
    { intros n Hin. now apply neighbors_in in Hin. }
    simpl. destruct ok; [ | now exists false].
    apply IH. intros x Hx. apply Hi. now right.
Qed.

Lemma consistent_total (Hwf : wf_crossword cw) (a : Assignment) :
  lengths_match a -> exists b, consistent cw a = Ret b.
Proof.
  intro Hl. apply consistent_loop_total; [exact Hwf | exact Hl | apply incl_refl].
Qed.

Lemma consistent_true_iff (Hwf : wf_crossword cw) (a : Assignment) :
  NoDup (keys a) ->
  (consistent cw a = Ret true <->
   lengths_match a /\ overlaps_agree cw a /\ all_distinct a).
Proof.
  intro Hn. unfold consistent.
  rewrite (consistent_loop_keys a Hn a [] (incl_refl a)).
  rewrite all_distinct_nodup.
  assert (Hd : List.length (add_all (values a) []) = List.length a
               <-> NoDup (values a)).
  { rewrite <- (add_all_length_nodup (values a) [] (NoDup_nil _)).
    simpl. unfold values. now rewrite length_map. }
  rewrite Hd. split.
  - intros [H1 H2]. split; [ | split; [ | exact H2]].
    + intros v w Hin. now apply H1.
    + intros v n wv wn i j Hv Hnn Hnb Ho.
      destruct (H1 v wv Hv) as [_ Hc].
      rewrite check_neighbors_true in Hc.
      destruct (Hc n Hnb) as (wv' & wn' & i' & j' & c & L1 & L2 & Ho' & G1 & G2).
      { apply assigned_in. change n with (fst (n, wn)). now apply in_map. }
      rewrite (in_lookup a v wv Hn Hv) in L1.
      rewrite (in_lookup a n wn Hn Hnn) in L2.
      injection L1 as <-. injection L2 as <-.
      rewrite Ho in Ho'. injection Ho' as <- <-. congruence.
  - intros (Hl & Ho & Hdist). split; [ | exact Hdist].
    intros v w Hin. split; [now apply Hl | ].
    apply check_neighbors_true. intros n Hnb Has.
    destruct (lookup_assigned a n Has) as [wn Hwn].
    destruct (neighbors_in cw v n Hnb) as (_ & _ & [j i] & Hp).
    apply (wf_sym cw Hwf) in Hp.
    destruct (wf_range cw Hwf _ _ _ _ Hp) as [Hi _].
    destruct (get_in_range w i) as [c Hc]; [now rewrite (Hl v w Hin) | ].
    exists w, wn, i, j, c. repeat split; trivial.
    + now apply in_lookup.
    + rewrite <- (Ho v n w wn i j Hin (lookup_in _ _ _ Hwn) Hnb Hp). exact Hc.
Qed.

End Validator.

(** ** Variable selection *)

Section Search.

Variable cw : Crossword.

Lemma unassigned_vars_in (a : Assignment) (v : Var) :
  In v (unassigned_vars cw a) <->
  In v (variables cw) /\ assigned v a = false.
Proof.
  unfold unassigned_vars. rewrite filter_In, negb_true_iff. reflexivity.
Qed.

Section Select.

Variable d : Domains.
Variable a : Assignment.

(** What the first loop of [select_unassigned_variable] maintains:
    [shortest] is unset exactly while nothing was collected, and otherwise
    is the domain size of a collected slot. *)
Lemma scan_step_spec (unassigned : list Var) (shortest : option nat) (v : Var) :
  match shortest with
  | None => unassigned = []
  | Some n => exists x, In x unassigned /\ List.length (d x) = n
  end ->
  exists unassigned' shortest',
    scan_step d a (unassigned, shortest) v = (unassigned', shortest')
    /\ unassigned' = unassigned ++ (if assigned v a then [] else [v])
    /\ match shortest' with
       | None => unassigned' = []
       | Some n => exists x, In x unassigned' /\ List.length (d x) = n
       end.
Proof.
  intro Inv. unfold scan_step. destruct (assigned v a).
  - exists unassigned, shortest. rewrite app_nil_r. now repeat split.
  - eexists. eexists. split; [reflexivity | split; [reflexivity | ]].
    assert (Hv : In v (unassigned ++ [v]))
      by (apply in_or_app; right; now left).
    destruct shortest as [[ | s] | ].
    + now exists v.
    + destruct (List.length (d v) <? S s).
      * now exists v.
      * destruct Inv as (x & Hx & E). exists x. split; [ | exact E].
        apply in_or_app. now left.
    + now exists v.
Qed.

Lemma scan_fold (vars : list Var) :
  forall unassigned shortest,
    match shortest with
    | None => unassigned = []
    | Some n => exists x, In x unassigned /\ List.length (d x) = n
    end ->
    exists unassigned' shortest',
      fold_left (scan_step d a) vars (unassigned, shortest)
      = (unassigned', shortest')
      /\ unassigned'
         = unassigned ++ filter (fun v => negb (assigned v a)) vars
      /\ match shortest' with
         | None => unassigned' = []
         | Some n => exists x, In x unassigned' /\ List.length (d x) = n
         end.
Proof.
  induction vars as [ | v vars IH]; intros unassigned shortest Inv.
  - exists unassigned, shortest. simpl. rewrite app_nil_r. now repeat split.
  - cbn [fold_left filter].
    destruct (scan_step_spec unassigned shortest v Inv)
      as (u1 & s1 & -> & Hu & Inv1).
    destruct (IH u1 s1 Inv1) as (u2 & s2 & Hf & Hu2 & Inv2).
    exists u2, s2. split; [exact Hf | split; [ | exact Inv2]].
    rewrite Hu2, Hu. destruct (assigned v a); simpl.
    + now rewrite app_nil_r.
    + now rewrite <- app_assoc.
Qed.

Lemma scan_unassigned_spec :
  fst (scan_unassigned cw d a) = unassigned_vars cw a
  /\ match snd (scan_unassigned cw d a) with
     | None => unassigned_vars cw a = []
     | Some n => exists x, In x (unassigned_vars cw a) /\ List.length (d x) = n
     end.
Proof.
  unfold scan_unassigned.
  destruct (scan_fold (variables cw) [] None eq_refl) as (u & s & -> & Hu & Inv).
  simpl in *. unfold unassigned_vars. rewrite <- Hu. split; [reflexivity | exact Inv].
Qed.

Lemma best_vars_in (unassigned : list Var) (shortest : option nat)
    (v : Var) (k : nat) :
  In (v, k) (best_vars cw d unassigned shortest) ->
  In v unassigned /\ len_is (List.length (d v)) shortest = true
  /\ k = List.length (neighbors cw v).
Proof.
  unfold best_vars. rewrite in_map_iff. intros (x & E & Hx).
  injection E as -> <-. apply filter_In in Hx as [H1 H2]. now repeat split.
Qed.

Lemma select_unassigned_variable_ret (v : Var) :
  select_unassigned_variable cw d a = Ret v ->
  In v (variables cw) /\ assigned v a = false.
Proof.
  unfold select_unassigned_variable.
  destruct scan_unassigned_spec as [H1 _].
  destruct (scan_unassigned cw d a) as [unassigned shortest]. simpl in H1.
  destruct (rev (sort_by snd (best_vars cw d unassigned shortest)))
    as [ | [x k] l] eqn:E; intro H; [discriminate | ].
  injection H as <-. apply unassigned_vars_in. rewrite <- H1.
  assert (Hin : In (x, k) (rev (sort_by snd (best_vars cw d unassigned shortest))))
    by (rewrite E; now left).
  apply in_rev, sort_by_in, best_vars_in in Hin. apply Hin.
Qed.

Lemma select_unassigned_variable_total :
  unassigned_vars cw a <> [] ->
  exists v, select_unassigned_variable cw d a = Ret v.
Proof.
  intro Hne. unfold select_unassigned_variable.
  destruct scan_unassigned_spec as [H1 H2].
  destruct (scan_unassigned cw d a) as [unassigned shortest]. simpl in H1, H2.
  destruct shortest as [n | ]; [ | contradiction].
  destruct H2 as (x & Hx & E).
  assert (Hin : In (x, List.length (neighbors cw x))
                   (rev (sort_by snd (best_vars cw d unassigned (Some n))))).
  { apply in_rev. rewrite rev_involutive. apply sort_by_in.
    unfold best_vars. apply in_map_iff. exists x. split; [reflexivity | ].
    apply filter_In. rewrite H1. split; [exact Hx | ].
    simpl. now apply Nat.eqb_eq. }
  destruct (rev (sort_by snd (best_vars cw d unassigned (Some n))))
    as [ | [v k] l]; [destruct Hin | ].
  now exists v.
Qed.

End Select.

(** ** Completeness test *)

Lemma assignment_complete_true (a : Assignment) :
  assignment_complete cw a = Ret true ->
  consistent cw a = Ret true /\ (forall v, In v (variables cw) -> In v (keys a)).
Proof.
  unfold assignment_complete. intro H. inv_bind H.
  destruct (List.length x =? 0) eqn:E; [ | discriminate].
  split; [exact H | ]. intros v Hv.
  destruct (in_dec Var_eq_dec v (keys a)) as [Hin | Hout]; [exact Hin | ].
  apply length_zero_nil in E. subst x.
  destruct (remove_each_keeps Var_eq_dec _ _ _ v Hx Hv Hout).
Qed.

Lemma assignment_complete_total (a : Assignment) (b : bool) :
  NoDup (keys a) -> incl (keys a) (variables cw) ->
  consistent cw a = Ret b ->
  exists c, assignment_complete cw a = Ret c.
Proof.
  intros Hn Hi Hc. unfold assignment_complete.
  destruct (remove_each_total Var_eq_dec (keys a) (variables cw) Hn Hi)
    as [all ->].
  simpl. destruct (List.length all =? 0); [now exists b | now exists false].
Qed.

Lemma assignment_complete_false (a : Assignment) :
  NoDup (variables cw) ->
  assignment_complete cw a = Ret false -> consistent cw a = Ret true ->
  unassigned_vars cw a <> [].
Proof.
  unfold assignment_complete. intros Hn H Hc. inv_bind H.
  destruct (List.length x =? 0) eqn:E; [congruence | ].
  destruct x as [ | v x]; [discriminate | ].
  assert (Hv : In v (unassigned_vars cw a)).
  { apply unassigned_vars_in. split.
    - apply (remove_each_incl Var_eq_dec _ _ _ Hx). now left.
    - apply not_assigned_in. intro Hin.
      apply (remove_each_drops Var_eq_dec _ _ _ v Hn Hx Hin). now left. }
  intro E'. rewrite E' in Hv. destruct Hv.
Qed.

(** ** The frame of the search *)

Lemma state_eta (s s' : State) (a : Assignment) :
  domains s' = domains s -> a = assignment s -> set_assignment s' a = s.
Proof.
  intros Hd ->. unfold set_assignment. rewrite Hd. now destruct s.
Qed.

Lemma try_words_frame (rec : State -> res State) (variable : Var) (s : State) :
  (forall s1 r, rec s1 = Ret r -> frame_ok cw s1 r) ->
  assigned variable (assignment s) = false ->
  forall ws s', incl ws (domains s variable) ->
    try_words cw rec variable ws s = Ret s' -> frame_ok cw s s'.
Proof.
  intros Hrec Hv. induction ws as [ | w ws IH]; simpl; intros s' Hi H.
  - inv_ret H. split; [reflexivity | split; [now right | now left]].
  - assert (Hi' : incl ws (domains s variable))
      by (intros x Hx; apply Hi; now right).
    inv_bind H. destruct x.
    + inv_bind H. inv_bind H.
      destruct (Hrec _ _ Hx0) as (Hd & Ha & He). simpl in Hd, Ha, He.
      destruct x0.
      * inv_ret H. split; [exact Hd | split; [now left | ]].
        intros v w' Hin. destruct (He v w' Hin) as [Hin' | Hin']; [ | now right].
        rewrite (dict_set_fresh _ _ _ Hv) in Hin'.
        apply in_app_or in Hin' as [Hin' | [E | []]]; [now left | ].
        injection E as <- <-. right. apply Hi. now left.
      * destruct Ha as [Ha | Ha]; [congruence | ].
        inv_bind H. rewrite Ha, (dict_pop_set_fresh _ _ _ Hv) in Hx2.
        inv_ret Hx2. rewrite (state_eta s x (assignment s) Hd eq_refl) in H.
        now apply IH.
    + inv_bind H. simpl in Hx0. rewrite (dict_pop_set_fresh _ _ _ Hv) in Hx0.
      inv_ret Hx0.
      rewrite (state_eta s (set_assignment s (dict_set variable w (assignment s)))
                 (assignment s) eq_refl eq_refl) in H.
      now apply IH.
Qed.

Lemma backtrack_frame (fuel : nat) :
  forall s s', backtrack cw fuel s = Ret s' -> frame_ok cw s s'.
Proof.
  induction fuel as [ | fuel IH]; simpl; intros s s' H; [discriminate | ].
  inv_bind H. destruct x.
  - inv_ret H. split; [reflexivity | split; [now left | now left]].
  - inv_bind H. apply select_unassigned_variable_ret in Hx0 as [_ Hv].
    eapply try_words_frame; [exact IH | exact Hv | apply incl_refl | exact H].
Qed.

(** ** The search returns *)

Lemma filter_length_mono (f g : Var -> bool) (l : list Var) :
  (forall x, f x = true -> g x = true) ->
  List.length (filter f l) <= List.length (filter g l).
Proof.
  intro H. induction l as [ | x l IH]; simpl; [lia | ].
  destruct (f x) eqn:Ef.
  - rewrite (H x Ef). simpl. lia.
  - destruct (g x); simpl; lia.
Qed.

Lemma filter_length_lt (f g : Var -> bool) (l : list Var) (v : Var) :
  (forall x, f x = true -> g x = true) ->
  In v l -> g v = true -> f v = false ->
  List.length (filter f l) < List.length (filter g l).
Proof.
  intros H Hv Hg Hf. induction l as [ | x l IH]; simpl; [destruct Hv | ].
  pose proof (filter_length_mono f g l H) as Hm.
  destruct Hv as [-> | Hv].
  - rewrite Hg, Hf. simpl. lia.
  - specialize (IH Hv). destruct (f x) eqn:Ef.
    + rewrite (H x Ef). simpl. lia.
    + destruct (g x); simpl; lia.
Qed.

Lemma unassigned_vars_extend (a : Assignment) (v : Var) (w : string) :
  In v (variables cw) -> assigned v a = false ->
  List.length (unassigned_vars cw (a ++ [(v, w)]))
  < List.length (unassigned_vars cw a).
Proof.
  intros Hv Ha. unfold unassigned_vars.
  apply filter_length_lt with (v := v); trivial.
  - intros x. rewrite assigned_app, !negb_true_iff, orb_false_iff. tauto.
  - now rewrite Ha.
  - rewrite assigned_app. simpl. destruct (Var_eq_dec v v); [ | congruence].
    now rewrite orb_true_r.
Qed.

Lemma keys_app (a b : Assignment) : keys (a ++ b) = keys a ++ keys b.
Proof. unfold keys. apply map_app. Qed.

Lemma try_words_total (Hwf : wf_crossword cw) (rec : State -> res State)
    (variable : Var) (s : State) :
  search_ready cw s ->
  In variable (variables cw) ->
  assigned variable (assignment s) = false ->
  (forall s1, search_ready cw s1 ->
     List.length (unassigned_vars cw (assignment s1))
     < List.length (unassigned_vars cw (assignment s)) ->
     exists r, rec s1 = Ret r /\ frame_ok cw s1 r) ->
  forall ws, (forall w, In w ws -> String.length w = var_length variable) ->
    exists s', try_words cw rec variable ws s = Ret s'.
Proof.
  intros (Hnc & Hnd & Hin & Hc) Hv Ha Hrec.
  assert (Hl : lengths_match (assignment s))
    by (now apply (consistent_true_iff cw Hwf _ Hnd) in Hc).
  induction ws as [ | w ws IH]; intro Hw; [now exists s | ].
  assert (IH' : exists s', try_words cw rec variable ws s = Ret s')
    by (apply IH; intros x Hx; apply Hw; now right).
  cbn [try_words]. unfold set_assignment. cbn [assignment domains].
  rewrite (dict_set_fresh _ _ _ Ha).
  assert (Hl1 : lengths_match (assignment s ++ [(variable, w)])).
  { intros x wx Hx. apply in_app_or in Hx as [Hx | [E | []]]; [now apply Hl | ].
    injection E as <- <-. apply Hw. now left. }
  assert (Hnd1 : NoDup (keys (assignment s ++ [(variable, w)]))).
  { rewrite keys_app. simpl. apply NoDup_app; [exact Hnd | repeat constructor; intros [] | ].
    intros x Hx [<- | []]. now apply not_assigned_in in Ha. }
  assert (Hin1 : incl (keys (assignment s ++ [(variable, w)])) (variables cw)).
  { rewrite keys_app. simpl. intros x Hx.
    apply in_app_or in Hx as [Hx | [<- | []]]; [now apply Hin | exact Hv]. }
  assert (Hpop : dict_pop variable (assignment s ++ [(variable, w)])
                 = Ret (assignment s)).
  { rewrite <- (dict_set_fresh _ w _ Ha). now apply dict_pop_set_fresh. }
  destruct (consistent_total cw Hwf _ Hl1) as [ok Hok]. rewrite Hok.
  cbn [bind]. destruct ok.
  - destruct (Hrec (mkState (domains s) (assignment s ++ [(variable, w)])))
      as (r & Hr & Hd & Hcomp & _).
    { repeat split; trivial. }
    { now apply unassigned_vars_extend. }
    rewrite Hr. cbn [bind]. cbn [domains assignment] in Hd, Hcomp.
    destruct Hcomp as [Hcomp | Hcomp].
    + rewrite Hcomp. cbn [bind]. now exists r.
    + rewrite Hcomp.
      destruct (assignment_complete_total _ true Hnd1 Hin1 Hok) as [c ->].
      cbn [bind]. destruct c; [now exists r | ].
      rewrite Hpop. cbn [bind].
      rewrite Hd. destruct s as [ds a]. exact IH'.
  - rewrite Hpop. cbn [bind]. destruct s as [ds a]. exact IH'.
Qed.

Lemma backtrack_total (Hwf : wf_crossword cw) (fuel : nat) :
  forall s, search_ready cw s ->
    List.length (unassigned_vars cw (assignment s)) < fuel ->
    exists s', backtrack cw fuel s = Ret s'.
Proof.
  induction fuel as [ | fuel IH]; intros s Hs Hf; [lia | ].
  cbn [backtrack].
  pose proof Hs as (Hnc & Hnd & Hin & Hc).
  destruct (assignment_complete_total _ true Hnd Hin Hc) as [c Hcomp].
  rewrite Hcomp. cbn [bind]. destruct c; [now exists s | ].
  destruct (select_unassigned_variable_total (domains s) (assignment s)) as [v Hv].
  { now apply assignment_complete_false; [apply (wf_variables cw Hwf) | | ]. }
  rewrite Hv. cbn [bind].
  apply select_unassigned_variable_ret in Hv as [Hv Ha].
  apply try_words_total; trivial.
  - intros s1 Hs1 Hlt. destruct (IH s1 Hs1) as [r Hr]; [lia | ].
    exists r. split; [exact Hr | ]. eapply backtrack_frame; eassumption.
  - intros w Hw. now apply Hnc.
Qed.

End Search.

(** ** Variable selection when no unassigned slot has an empty domain *)

Lemma insert_by_sorted (A : Type) (key : A -> nat) (x : A) (l : list A) :
  StronglySorted (fun p q => key p <= key q) l ->
  StronglySorted (fun p q => key p <= key q) (insert_by key x l).
Proof.
  induction l as [ | y l IH]; simpl; intro Hs.
  - repeat constructor.
  - inversion Hs as [ | ? ? Hs' Hall]; subst.
    destruct (key x <=? key y) eqn:E.
    + apply Nat.leb_le in E. constructor; [exact Hs | ].
      constructor; [exact E | ].
      rewrite Forall_forall in *. intros z Hz. specialize (Hall z Hz). lia.
    + apply Nat.leb_gt in E. constructor; [now apply IH | ].
      rewrite Forall_forall in *. intros z Hz.
      apply insert_by_in in Hz as [-> | Hz]; [lia | now apply Hall].
Qed.

Lemma sort_by_sorted (A : Type) (key : A -> nat) (l : list A) :
  StronglySorted (fun p q => key p <= key q) (sort_by key l).
Proof.
  induction l as [ | x l IH]; simpl; [constructor | now apply insert_by_sorted].
Qed.

Lemma sorted_last_max (A : Type) (key : A -> nat) (l : list A) (x : A) :
  StronglySorted (fun p q => key p <= key q) (l ++ [x]) ->
  forall y, In y l -> key y <= key x.
Proof.
  induction l as [ | z l IH]; simpl; intros Hs y Hy; [destruct Hy | ].
  inversion Hs as [ | ? ? Hs' Hall]; subst.
  destruct Hy as [-> | Hy]; [ | now apply IH].
  rewrite Forall_forall in Hall. apply Hall, in_or_app. right. now left.
Qed.

Lemma sort_by_rev_head (A : Type) (key : A -> nat) (l rest : list A) (x : A) :
  rev (sort_by key l) = x :: rest ->
  In x l /\ forall y, In y l -> key y <= key x.
Proof.
  intro E.
  assert (Hs : sort_by key l = rev rest ++ [x])
    by (rewrite <- (rev_involutive (sort_by key l)), E; reflexivity).
  split.
  - apply (sort_by_in A key). rewrite Hs. apply in_or_app. right. now left.
  - intros y Hy. apply (sort_by_in A key) in Hy. rewrite Hs in Hy.
    apply in_app_or in Hy as [Hy | [<- | []]]; [ | lia].
    apply (sorted_last_max A key (rev rest) x); [ | exact Hy].
    rewrite <- Hs. apply sort_by_sorted.
Qed.

Section SelectMinimum.

Variable cw : Crossword.
Variable d : Domains.
Variable a : Assignment.

Hypothesis nonempty :
  forall u, In u (unassigned_vars cw a) -> d u <> [].

Lemma scan_fold_min (vars : list Var) :
  incl vars (variables cw) ->
  forall unassigned shortest,
    incl unassigned (unassigned_vars cw a) ->
    match shortest with
    | None => unassigned = []
    | Some n => (exists x, In x unassigned /\ List.length (d x) = n)
                /\ forall y, In y unassigned -> n <= List.length (d y)
    end ->
    exists unassigned' shortest',
      fold_left (scan_step d a) vars (unassigned, shortest)
      = (unassigned', shortest')
      /\ match shortest' with
         | None => unassigned' = []
         | Some n => (exists x, In x unassigned' /\ List.length (d x) = n)
                     /\ forall y, In y unassigned' -> n <= List.length (d y)
         end.
Proof.
  induction vars as [ | v vars IH]; intros Hi unassigned shortest Hu Inv.
  - now exists unassigned, shortest.
  - cbn [fold_left].
    assert (Hi' : incl vars (variables cw))
      by (intros x Hx; apply Hi; now right).
    unfold scan_step at 2. destruct (assigned v a) eqn:Ha.
    + now apply IH.
    + assert (Hv : In v (unassigned_vars cw a)).
      { apply unassigned_vars_in. split; [apply Hi; now left | exact Ha]. }
      assert (Hin : In v (unassigned ++ [v]))
        by (apply in_or_app; right; now left).
      apply IH; trivial.
      * intros x Hx. apply in_app_or in Hx as [Hx | [<- | []]]; [now apply Hu | exact Hv].
      * destruct shortest as [[ | s] | ].
        -- destruct Inv as [(x & Hx & E) _]. apply length_zero_iff_nil in E.
           exfalso. now apply (nonempty x (Hu x Hx)).
        -- destruct Inv as [(x & Hx & E) Hmin].
           destruct (List.length (d v) <? S s) eqn:El.
           ++ apply Nat.ltb_lt in El. split; [now exists v | ].
              intros y Hy. apply in_app_or in Hy as [Hy | [<- | []]]; [ | lia].
              specialize (Hmin y Hy). lia.
           ++ apply Nat.ltb_ge in El. split.
              ** exists x. split; [apply in_or_app; now left | exact E].
              ** intros y Hy. apply in_app_or in Hy as [Hy | [<- | []]];
                   [now apply Hmin | exact El].
        -- subst unassigned. split; [now exists v | ].
           intros y [<- | []]. lia.
Qed.

(** Where no unassigned slot has an empty domain, the slot returned has
    the fewest remaining values and, among those, the most neighbors. *)
Lemma select_unassigned_variable_mrv (v : Var) :
  select_unassigned_variable cw d a = Ret v ->
  In v (unassigned_vars cw a)
  /\ (forall u, In u (unassigned_vars cw a) ->
                List.length (d v) <= List.length (d u))
  /\ (forall u, In u (unassigned_vars cw a) ->
                List.length (d u) = List.length (d v) ->
                List.length (neighbors cw u) <= List.length (neighbors cw v)).
Proof.
  unfold select_unassigned_variable.
  destruct (scan_unassigned_spec cw d a) as [H1 _].
  unfold scan_unassigned in *.
  destruct (scan_fold_min (variables cw) (incl_refl _) [] None)
    as (un & sh & E & Inv); [intros x [] | reflexivity | ].
  rewrite E in *. simpl in H1. subst un.
  destruct (rev (sort_by snd (best_vars cw d (unassigned_vars cw a) sh)))
    as [ | [x k] rest] eqn:Er; intro H; [discriminate | ].
  injection H as <-.
  apply sort_by_rev_head in Er as [Hin Hmax].
  apply best_vars_in in Hin as (Hx & Hlen & ->).
  destruct sh as [n | ]; [ | discriminate].
  simpl in Hlen. apply Nat.eqb_eq in Hlen.
  destruct Inv as [_ Hmin].
  split; [exact Hx | split].
  - intros u Hu. rewrite Hlen. now apply Hmin.
  - intros u Hu Eu.
    assert (Hb : In (u, List.length (neighbors cw u))
                    (best_vars cw d (unassigned_vars cw a) (Some n))).
    { unfold best_vars. apply in_map_iff. exists u. split; [reflexivity | ].
      apply filter_In. split; [exact Hu | ]. simpl. apply Nat.eqb_eq. lia. }
    exact (Hmax _ Hb).
Qed.

End SelectMinimum.

(** * The claims of the specification *)

(** ** The concrete puzzles are well formed *)

Lemma overlaps_of_table_in (t : list ((Var * Var) * (nat * nat)))
    (x y : Var) (p : nat * nat) :
  overlaps_of_table t x y = Some p -> In ((x, y), p) t.
Proof.
  unfold overlaps_of_table.
  destruct (find _ t) as [[k q] | ] eqn:E; intro H; [ | discriminate].
  injection H as <-. apply find_some in E as [Hin Hk]. simpl in Hk.
  destruct (arc_eq_dec k (x, y)) as [<- | ]; [exact Hin | discriminate].
Qed.

Lemma pair_eqb_eq (p q : nat * nat) : pair_eqb p q = true -> p = q.
Proof.
  destruct p, q. unfold pair_eqb. simpl.
  rewrite andb_true_iff, !Nat.eqb_eq. intros [-> ->]. reflexivity.
Qed.

Lemma wf_table_sound (t : list ((Var * Var) * (nat * nat))) :
  wf_table t = true ->
  forall x y i j, overlaps_of_table t x y = Some (i, j) ->
    (i < var_length x /\ j < var_length y)
    /\ overlaps_of_table t y x = Some (j, i).
Proof.
  intros Hwf x y i j Ho.
  pose proof (overlaps_of_table_in t x y (i, j) Ho) as Hin.
  unfold wf_table in Hwf. rewrite forallb_forall in Hwf.
  specialize (Hwf _ Hin). simpl in Hwf.
  rewrite !andb_true_iff, !Nat.ltb_lt in Hwf.
  destruct Hwf as [[Hi Hj] Hs]. split; [now split | ].
  destruct (overlaps_of_table t x y) as [p | ]; [ | discriminate].
  destruct (overlaps_of_table t y x) as [q | ]; [ | discriminate].
  apply andb_true_iff in Hs as [_ Hq]. apply pair_eqb_eq in Hq. now subst.
Qed.

Lemma wf_cross (ws : list string) : NoDup ws -> wf_crossword (cross ws).
Proof.
  intro Hn. constructor; simpl.
  - repeat constructor; simpl; [intros [E | []]; discriminate | tauto].
  - exact Hn.
  - intros x y i j H. now apply (wf_table_sound cross_table eq_refl) in H.
  - intros x y i j H. now apply (wf_table_sound cross_table eq_refl) in H.
Qed.

Lemma wf_single (ws : list string) : NoDup ws -> wf_crossword (single ws).
Proof.
  intro Hn. constructor; simpl; try discriminate.
  - repeat constructor; simpl; tauto.
  - exact Hn.
Qed.

Ltac distinct_words :=
  repeat constructor; simpl; intuition discriminate.

(** ** C1 *)

Lemma solve_never_none (cw : Crossword) : solve cw <> Ret None.
Proof.
  unfold solve. intro H. inv_bind H. inv_bind H. destruct x0 as [b d2].
  inv_bind H. discriminate.
Qed.

(** C1 (the code departs from the claim).  The claim: [solve] returns [None]
    exactly when there is no solution, and any other value it returns is a
    complete assignment.  On the one-slot puzzle whose word list holds only
    a two-letter word there is no solution, and [solve] returns the empty
    dict, which is neither [None] nor complete. *)
Theorem solve_returns_dict_without_solution :
  solve single_ab = Ret (Some [])
  /\ solve single_ab <> Ret None
  /\ assignment_complete single_ab [] = Ret false.
Proof.
  split; [vm_compute; reflexivity | split; [apply solve_never_none | ]].
  vm_compute. reflexivity.
Qed.

Example solve_cat_arc_dog :
  solve cross_cat_arc_dog = Ret (Some cat_arc)
  /\ assignment_complete cross_cat_arc_dog cat_arc = Ret true.
Proof. split; vm_compute; reflexivity. Qed.

(** ** C2 *)

Lemma consistent_empty (cw : Crossword) : consistent cw [] = Ret true.
Proof. reflexivity. Qed.

Lemma propagate_correct (cw : Crossword) (Hwf : wf_crossword cw) :
  exists d1 b d,
    enforce_node_consistency cw (init_domains cw) = Ret d1
    /\ ac3 cw None d1 = Ret (b, d)
    /\ propagate cw = Ret (b, d)
    /\ shrinks d1 (init_domains cw) /\ shrinks d d1
    /\ node_consistent cw d /\ domains_are_sets cw d
    /\ (b = false -> exists x, In x (variables cw) /\ d x = []).
Proof.
  destruct (enforce_node_consistency_correct cw (init_domains cw))
    as (d1 & H1 & Hs1 & Hset1 & Hn1).
  { intros v _. apply (wf_words cw Hwf). }
  destruct (ac3_correct cw Hwf d1 Hn1 Hset1) as (b & d & H2 & Hs2 & Hset2 & Hb).
  exists d1, b, d. unfold propagate. rewrite H1. simpl.
  repeat split; trivial.
  eapply node_consistent_shrinks; eassumption.
Qed.

Lemma search_from_empty (cw : Crossword) (Hwf : wf_crossword cw) (d : Domains) :
  node_consistent cw d ->
  exists s, backtrack cw (backtrack_fuel cw) (mkState d []) = Ret s
            /\ frame_ok cw (mkState d []) s.
Proof.
  intro Hn.
  destruct (backtrack_total cw Hwf (backtrack_fuel cw) (mkState d [])) as [s Hs].
  - repeat split; simpl; trivial; [constructor | intros x []].
  - unfold backtrack_fuel, unassigned_vars.
    apply Nat.lt_succ_r, filter_length_le.
  - exists s. split; [exact Hs | ]. eapply backtrack_frame; eassumption.
Qed.

Lemma solve_logged_erases (cw : Crossword) :
  snd (solve_logged cw) = solve cw.
Proof.
  unfold solve_logged, solve, bind_logged. cbn [fst snd].
  destruct (enforce_node_consistency cw (init_domains cw)) as [d1 | e | ];
    cbn [bind fst snd]; try reflexivity.
  destruct (ac3 cw None d1) as [[b d2] | e | ]; cbn [bind fst snd];
    try reflexivity.
  destruct (backtrack cw (backtrack_fuel cw) (mkState d2 [])) as [s | e | ];
    reflexivity.
Qed.

(** C2, as the code has it.  When [ac3] fails, [solve] does not stop: the
    calls it makes are [enforce_node_consistency], [ac3] and then
    [backtrack], on the domain store the failed propagation left and the
    empty assignment.  On a well-formed crossword that search returns, and
    the assignment it returns is not complete. *)
Theorem solve_searches_after_ac3_failure (cw : Crossword) (d : Domains) :
  wf_crossword cw ->
  propagate cw = Ret (false, d) ->
  fst (solve_logged cw)
  = [CallEnforceNodeConsistency; CallAc3; CallBacktrack d []]
  /\ snd (solve_logged cw) = solve cw
  /\ exists s,
       backtrack cw (backtrack_fuel cw) (mkState d []) = Ret s
       /\ assignment_complete cw (assignment s) = Ret false.
Proof.
  intros Hwf Hp.
  destruct (propagate_correct cw Hwf)
    as (d1 & b & d' & H1 & H2 & Hp' & _ & _ & Hn & _ & Hb).
  rewrite Hp in Hp'. injection Hp' as <- <-.
  destruct (Hb eq_refl) as (x & Hx & Hempty).
  destruct (search_from_empty cw Hwf d Hn) as (s & Hs & Hd & Hc & He).
  simpl in Hd, Hc, He.
  split; [ | split; [apply solve_logged_erases | ]].
  - unfold solve_logged, bind_logged. cbn [fst snd].
    rewrite H1. cbn [fst snd]. rewrite H2. cbn [fst snd]. rewrite Hs.
    reflexivity.
  - exists s. split; [exact Hs | ].
    assert (Hnot : assignment_complete cw (assignment s) <> Ret true).
    { intro Hcomp. apply assignment_complete_true in Hcomp as [_ Hall].
      specialize (Hall x Hx). unfold keys in Hall.
      apply in_map_iff in Hall as ([x' w] & E & Hin). simpl in E. subst x'.
      destruct (He x w Hin) as [[] | Hw]. rewrite Hempty in Hw. destruct Hw. }
    destruct Hc as [Hc | Hc]; [contradiction | ].
    rewrite Hc. unfold assignment_complete. simpl.
    destruct (variables cw) as [ | v vs]; [destruct Hx | reflexivity].
Qed.

Lemma solve_searches_after_ac3_failure_witness :
  wf_crossword cross_cat_dog
  /\ propagate cross_cat_dog = Ret (false, propagated cross_cat_dog)
  /\ fst (solve_logged cross_cat_dog)
     = [CallEnforceNodeConsistency; CallAc3;
        CallBacktrack (propagated cross_cat_dog) []]
  /\ snd (solve_logged cross_cat_dog) = solve cross_cat_dog
  /\ exists s,
       backtrack cross_cat_dog (backtrack_fuel cross_cat_dog)
                 (mkState (propagated cross_cat_dog) []) = Ret s
       /\ assignment_complete cross_cat_dog (assignment s) = Ret false.
Proof.
  assert (Hwf : wf_crossword cross_cat_dog) by (apply wf_cross; distinct_words).
  assert (Hp : propagate cross_cat_dog = Ret (false, propagated cross_cat_dog))
    by (vm_compute; reflexivity).
  split; [exact Hwf | split; [exact Hp | ]].
  exact (solve_searches_after_ac3_failure
           cross_cat_dog (propagated cross_cat_dog) Hwf Hp).
Defined.

(** C2, as the claim states it, fails.  On the crossing pair with the
    words "cat" and "dog" propagation empties the domain of the ACROSS slot
    and [ac3] returns [False]; the next call [solve] makes is [backtrack],
    on that very store: the search engine is invoked on the inconsistent
    domain set. *)
Lemma ac3_failure_search_invoked :
  propagate cross_cat_dog = Ret (false, propagated cross_cat_dog)
  /\ cross_view (propagated cross_cat_dog) = ([], ["cat"; "dog"]%string)
  /\ fst (solve_logged cross_cat_dog)
     = [CallEnforceNodeConsistency; CallAc3;
        CallBacktrack (propagated cross_cat_dog) []]
  /\ searched (fst (solve_logged cross_cat_dog)) = true
  /\ ~ skips_search_after_failure cross_cat_dog.
Proof.
  assert (Hp : propagate cross_cat_dog = Ret (false, propagated cross_cat_dog))
    by (vm_compute; reflexivity).
  assert (Hs : searched (fst (solve_logged cross_cat_dog)) = true)
    by (vm_compute; reflexivity).
  split; [exact Hp | ].
  split; [vm_compute; reflexivity | ].
  split; [vm_compute; reflexivity | ].
  split; [exact Hs | ].
  intro H. rewrite (H _ Hp) in Hs. discriminate.
Qed.

(** ** C3 *)

(** C3 (the code departs from the claim).  The claim: after [ac3] ran with
    no seed arcs and returned success, every word of every slot has a
    partner in the domain of every overlapping slot.  On the crossing pair
    with the words "cat", "arc" and "dog" the worklist starts with the one
    arc (ACROSS, DOWN); [ac3] succeeds, and "dog" stays in the domain of
    the DOWN slot although no word left for the ACROSS slot has a "d" at
    the crossing. *)
Theorem ac3_leaves_unsupported_word :
  initial_arcs cross_cat_arc_dog = [(slot_across, slot_down)]
  /\ propagate_view cross_cat_arc_dog
     = Ret (true, (["cat"], ["cat"; "arc"; "dog"]))%string
  /\ ~ supported cross_cat_arc_dog (propagated cross_cat_arc_dog)
         slot_down slot_across "dog"
  /\ ~ arc_consistent cross_cat_arc_dog (propagated cross_cat_arc_dog).
Proof.
  assert (Hs : ~ supported cross_cat_arc_dog (propagated cross_cat_arc_dog)
                   slot_down slot_across "dog").
  { intro H. destruct (H 0 1 eq_refl) as (w' & Hin & c & H1 & H2).
    assert (E : propagated cross_cat_arc_dog slot_across = ["cat"%string])
      by (vm_compute; reflexivity).
    rewrite E in Hin. destruct Hin as [<- | []].
    simpl in H1, H2. congruence. }
  split; [vm_compute; reflexivity | split; [vm_compute; reflexivity | ]].
  split; [exact Hs | ].
  intro H. apply Hs. apply H.
  - simpl. tauto.
  - simpl. tauto.
  - assert (E : propagated cross_cat_arc_dog slot_down
                = ["cat"; "arc"; "dog"]%string) by (vm_compute; reflexivity).
    rewrite E. simpl. tauto.
Qed.

(** The same with the slots iterated DOWN first: the worklist is the one
    arc (DOWN, ACROSS) and the unsupported words stay with ACROSS. *)
Lemma ac3_leaves_unsupported_word_mirrored :
  initial_arcs (cross_rev ["cat"; "arc"; "dog"]%string)
  = [(slot_down, slot_across)]
  /\ propagate_view (cross_rev ["cat"; "arc"; "dog"]%string)
     = Ret (true, (["cat"; "arc"; "dog"], ["arc"]))%string.
Proof. split; vm_compute; reflexivity. Qed.

(** ** C4 *)

(** C4 (the code departs from the claim).  The claim: [ac3] fails exactly
    when some domain is or becomes empty, and never succeeds with an empty
    domain.  On the one-slot puzzle whose only word has the wrong length,
    node consistency empties the slot's domain, the worklist of [ac3] is
    empty, and [ac3] returns [True]. *)
Theorem ac3_succeeds_with_empty_domain :
  exists d1 d2,
    enforce_node_consistency single_ab (init_domains single_ab) = Ret d1
    /\ d1 slot_across = []
    /\ initial_arcs single_ab = []
    /\ ac3 single_ab None d1 = Ret (true, d2)
    /\ d2 slot_across = [].
Proof.
  eexists. eexists.
  split; [vm_compute; reflexivity | ].
  split; [vm_compute; reflexivity | ].
  split; [vm_compute; reflexivity | ].
  split; vm_compute; reflexivity.
Qed.

(** ** C5 *)

(** C5 (the code departs from the claim).  The claim: [backtrack] tries the
    candidate words in the order [order_domain_values] produces.  The loop
    of [backtrack] runs over [self.domains[variable]] and never calls
    [order_domain_values].  On the crossing pair with five words the search
    selects the ACROSS slot, whose domain is iterated as "cot", "cat",
    "ace", "oar" while [order_domain_values] puts "cot" last; the search
    returns ACROSS = "cot", where the search of the specification returns
    ACROSS = "cat". *)
Theorem backtrack_ignores_order_domain_values :
  propagate_view cross_five
  = Ret (true, (["cot"; "cat"; "ace"; "oar"],
                ["cot"; "cat"; "arc"; "ace"; "oar"]))%string
  /\ select_unassigned_variable cross_five (propagated cross_five) []
     = Ret slot_across
  /\ order_domain_values cross_five (propagated cross_five) slot_across []
     = Ret ["cat"; "ace"; "oar"; "cot"]%string
  /\ solve cross_five
     = Ret (Some [(slot_across, "cot"); (slot_down, "oar")])%string
  /\ solve_lcv cross_five
     = Ret (Some [(slot_across, "cat"); (slot_down, "arc")])%string.
Proof.
  repeat split; vm_compute; reflexivity.
Qed.

(** ** C6 *)

(** C6 (the code departs from the claim).  The claim: the slot returned has
    the fewest remaining values among the unassigned slots, also when some
    unassigned slot has an empty domain.  The test [if not shortest] takes
    a recorded size of 0 for "nothing recorded yet" and overwrites it.  In
    the state the search of the pair with "cat" and "dog" starts from, the
    ACROSS slot has no value left and the DOWN slot has two; the DOWN slot
    is returned. *)
Theorem select_passes_over_empty_domain :
  unassigned_vars cross_cat_dog [] = [slot_across; slot_down]
  /\ propagated cross_cat_dog slot_across = []
  /\ propagated cross_cat_dog slot_down = ["cat"; "dog"]%string
  /\ scan_unassigned cross_cat_dog (propagated cross_cat_dog) []
     = ([slot_across; slot_down], Some 2)
  /\ select_unassigned_variable cross_cat_dog (propagated cross_cat_dog) []
     = Ret slot_down.
Proof.
  repeat split; vm_compute; reflexivity.
Qed.

(** The same with the slots iterated DOWN first: propagation empties the
    domain of DOWN, and ACROSS, with two values left, is returned. *)
Lemma select_passes_over_empty_domain_mirrored :
  propagate_view (cross_rev ["cat"; "dog"]%string)
  = Ret (false, (["cat"; "dog"], []))%string
  /\ select_unassigned_variable (cross_rev ["cat"; "dog"]%string)
       (propagated (cross_rev ["cat"; "dog"]%string)) []
     = Ret slot_across.
Proof. split; vm_compute; reflexivity. Qed.

(** ** C7 *)

(** C7.  For every assignment (a dict: its keys are distinct) over a
    well-formed crossword, [consistent] returns [True] if and only if every
    assigned word has the length of its slot, every two assigned
    neighboring slots agree at their recorded overlap indices, and the
    number of distinct assigned words equals the number of assigned
    words; the last condition says that the assigned words are pairwise
    distinct. *)
Theorem consistent_iff_three_conditions (cw : Crossword) (a : Assignment) :
  wf_crossword cw ->
  NoDup (keys a) ->
  (consistent cw a = Ret true <->
   lengths_match a /\ overlaps_agree cw a /\ all_distinct a)
  /\ (all_distinct a <-> NoDup (values a)).
Proof.
  intros Hwf Hn. split; [now apply consistent_true_iff | ].
  apply all_distinct_nodup.
Qed.

Lemma consistent_iff_three_conditions_witness :
  wf_crossword cross_cat_arc_dog
  /\ NoDup (keys cat_arc)
  /\ (consistent cross_cat_arc_dog cat_arc = Ret true <->
      lengths_match cat_arc /\ overlaps_agree cross_cat_arc_dog cat_arc
      /\ all_distinct cat_arc)
  /\ (all_distinct cat_arc <-> NoDup (values cat_arc)).
Proof.
  assert (Hwf : wf_crossword cross_cat_arc_dog)
    by (apply wf_cross; distinct_words).
  assert (Hn : NoDup (keys cat_arc))
    by (repeat constructor; simpl; [intros [E | []]; discriminate | tauto]).
  split; [exact Hwf | split; [exact Hn | ]].
  exact (consistent_iff_three_conditions cross_cat_arc_dog cat_arc Hwf Hn).
Defined.

Example consistent_cat_arc : consistent cross_cat_arc_dog cat_arc = Ret true.
Proof. vm_compute. reflexivity. Qed.

(** ** C8 *)

(** C8.  [enforce_node_consistency], [revise] and [ac3] only shrink the
    domains: whatever store they return is pointwise included in the store
    they were given.  They do return: node consistency on any store of
    sets, [revise] and [ac3] on any node-consistent store of sets of a
    well-formed crossword. *)
Theorem consistency_only_shrinks (cw : Crossword) (d : Domains) :
  (forall d', enforce_node_consistency cw d = Ret d' -> shrinks d' d)
  /\ (forall x y b d', revise cw x y d = Ret (b, d') -> shrinks d' d)
  /\ (forall arcs b d', ac3 cw arcs d = Ret (b, d') -> shrinks d' d)
  /\ (domains_are_sets cw d ->
      exists d', enforce_node_consistency cw d = Ret d')
  /\ (wf_crossword cw -> node_consistent cw d -> domains_are_sets cw d ->
      (forall x y, In x (variables cw) -> In y (variables cw) ->
                   exists b d', revise cw x y d = Ret (b, d'))
      /\ exists b d', ac3 cw None d = Ret (b, d')).
Proof.
  split; [ | split; [ | split; [ | split]]].
  - intros d'. apply enforce_node_loop_shrinks.
  - intros x y b d'. apply revise_shrinks.
  - intros arcs b d'. apply ac3_shrinks.
  - intro Hs. destruct (enforce_node_consistency_correct cw d Hs) as (d' & H & _).
    now exists d'.
  - intros Hwf Hn Hs. split.
    + intros x y Hx Hy. apply revise_total.
      * intros i j. apply (wf_range cw Hwf).
      * intro w. now apply Hn.
      * intro w. now apply Hn.
      * now apply Hs.
    + destruct (ac3_correct cw Hwf d Hn Hs) as (b & d' & H & _).
      now exists b, d'.
Qed.

(** ** C9 *)

(** C9.  [backtrack] never changes the domain store, and when the
    assignment it returns is not complete it is the assignment it was
    given.  It does return, in every state the search reaches: a consistent
    assignment over node-consistent domains of a well-formed crossword,
    with fuel above the number of unassigned slots. *)
Theorem backtrack_leaves_no_side_effects (cw : Crossword) (fuel : nat)
    (s : State) :
  (forall s', backtrack cw fuel s = Ret s' ->
     domains s' = domains s
     /\ (assignment_complete cw (assignment s') <> Ret true ->
         assignment s' = assignment s))
  /\ (wf_crossword cw -> search_ready cw s ->
      List.length (unassigned_vars cw (assignment s)) < fuel ->
      exists s', backtrack cw fuel s = Ret s').
Proof.
  split.
  - intros s' H. apply backtrack_frame in H as (Hd & Hc & _).
    split; [exact Hd | ]. intro Hn. destruct Hc as [Hc | Hc]; [contradiction | exact Hc].
  - intros Hwf Hs Hf. now apply backtrack_total.
Qed.

(** ** C10 *)

(** C10 (the code departs from the claim).  The claim: [consistent]
    evaluates without an out-of-range index for every assignment.  The loop
    of [consistent] compares the characters of a slot and of an assigned
    neighbor before it has checked the length of the neighbor's word.  With
    DOWN = "arc" assigned first and ACROSS = "c", the first pass indexes
    "c" at position 1 and raises IndexError. *)
Theorem consistent_raises_index_error :
  keys short_across = [slot_down; slot_across]
  /\ overlaps cross_cat_arc_dog slot_down slot_across = Some (0, 1)
  /\ consistent cross_cat_arc_dog short_across = Raise IndexError.
Proof.
  repeat split; vm_compute; reflexivity.
Qed.

(** The second half of C10 holds: wherever the search calls
    [select_unassigned_variable], it returns a slot. *)
Lemma select_unassigned_variable_safe_in_search (cw : Crossword) (s : State) :
  wf_crossword cw -> search_ready cw s ->
  assignment_complete cw (assignment s) = Ret false ->
  exists v, select_unassigned_variable cw (domains s) (assignment s) = Ret v
            /\ In v (variables cw) /\ assigned v (assignment s) = false.
Proof.
  intros Hwf (_ & _ & _ & Hc) Hcomp.
  destruct (select_unassigned_variable_total cw (domains s) (assignment s))
    as [v Hv].
  - apply assignment_complete_false; trivial. apply (wf_variables cw Hwf).
  - exists v. split; [exact Hv | ].
    now apply select_unassigned_variable_ret in Hv.
Qed.

(** ** Concrete runs of the confirmed claims *)

Lemma consistency_only_shrinks_witness :
  exists d1 b d2,
    enforce_node_consistency cross_cat_arc_dog (init_domains cross_cat_arc_dog)
    = Ret d1
    /\ shrinks d1 (init_domains cross_cat_arc_dog)
    /\ ac3 cross_cat_arc_dog None d1 = Ret (b, d2)
    /\ shrinks d2 d1.
Proof.
  assert (Hwf : wf_crossword cross_cat_arc_dog)
    by (apply wf_cross; distinct_words).
  destruct (propagate_correct cross_cat_arc_dog Hwf)
    as (d1 & b & d2 & H1 & H2 & _ & _ & _ & _ & _ & _).
  exists d1, b, d2.
  destruct (consistency_only_shrinks cross_cat_arc_dog
              (init_domains cross_cat_arc_dog)) as (Hnode & _).
  destruct (consistency_only_shrinks cross_cat_arc_dog d1)
    as (_ & _ & Hac3 & _).
  split; [exact H1 | split; [exact (Hnode d1 H1) | ]].
  split; [exact H2 | exact (Hac3 None b d2 H2)].
Defined.

Lemma backtrack_leaves_no_side_effects_witness :
  exists s',
    backtrack cross_cat_dog (backtrack_fuel cross_cat_dog)
              (mkState (propagated cross_cat_dog) []) = Ret s'
    /\ domains s' = propagated cross_cat_dog
    /\ assignment s' = [].
Proof.
  exists (mkState (propagated cross_cat_dog) []).
  assert (H : backtrack cross_cat_dog (backtrack_fuel cross_cat_dog)
                        (mkState (propagated cross_cat_dog) [])
              = Ret (mkState (propagated cross_cat_dog) []))
    by (vm_compute; reflexivity).
  destruct (backtrack_leaves_no_side_effects cross_cat_dog
              (backtrack_fuel cross_cat_dog)
              (mkState (propagated cross_cat_dog) [])) as [Hframe _].
  destruct (Hframe _ H) as [Hd Ha].
  split; [exact H | split; [exact Hd | ]].
  apply Ha. vm_compute. discriminate.
Defined.

Example select_minimum_on_cross_five :
  select_unassigned_variable cross_five (propagated cross_five) []
  = Ret slot_across
  /\ List.length (propagated cross_five slot_across) = 4
  /\ List.length (propagated cross_five slot_down) = 5.
Proof. repeat split; vm_compute; reflexivity. Qed.

(** * Further properties of the code *)

(** ** Node consistency keeps exactly the words of the right length *)

Section NodeConsistency.

Variable cw : Crossword.

Lemma enforce_node_loop_keeps (vars : list Var) :
  forall d d' v w, enforce_node_loop vars d = Ret d' ->
    In w (d v) -> String.length w = var_length v -> In w (d' v).
Proof.
  induction vars as [ | var vars IH]; simpl; intros d d' v w H Hw Hl.
  - now inv_ret H.
  - inv_bind H. apply (IH _ _ v w H); [ | exact Hl].
    destruct (Var_eq_dec v var) as [-> | N].
    + rewrite update_same.
      apply (remove_each_keeps string_dec _ _ _ w Hx Hw).
      intro Hin. apply node_removes_in in Hin. tauto.
    + now rewrite update_other.
Qed.

Lemma enforce_node_loop_untouched (vars : list Var) :
  forall d d' v, enforce_node_loop vars d = Ret d' ->
    ~ In v vars -> d' v = d v.
Proof.
  induction vars as [ | var vars IH]; simpl; intros d d' v H Hv.
  - now inv_ret H.
  - inv_bind H. rewrite (IH _ _ v H) by tauto.
    apply update_other. intros ->. apply Hv. now left.
Qed.

(** X1.  On a store of sets [enforce_node_consistency] returns, and the
    store it returns holds, for every slot of the crossword, exactly the
    words of the old domain whose length is the slot's length; the domain
    of any other key is left as it was. *)
Theorem enforce_node_consistency_exact (d : Domains) :
  domains_are_sets cw d ->
  exists d', enforce_node_consistency cw d = Ret d'
    /\ (forall v w, In v (variables cw) ->
          (In w (d' v) <-> In w (d v) /\ String.length w = var_length v))
    /\ (forall v, ~ In v (variables cw) -> d' v = d v).
Proof.
  intro Hs.
  destruct (enforce_node_consistency_correct cw d Hs) as (d' & H & Hsh & _ & Hn).
  exists d'. split; [exact H | split].
  - intros v w Hv. split.
    + intro Hw. split; [now apply Hsh | now apply Hn].
    + intros [Hw Hl]. eapply enforce_node_loop_keeps; eassumption.
  - intros v Hv. eapply enforce_node_loop_untouched; eassumption.
Qed.

End NodeConsistency.

Lemma enforce_node_consistency_exact_witness :
  exists d', enforce_node_consistency single_apt (init_domains single_apt)
             = Ret d'
    /\ (forall v w, In v (variables single_apt) ->
          (In w (d' v) <->
           In w (init_domains single_apt v)
           /\ String.length w = var_length v))
    /\ (forall v, ~ In v (variables single_apt) ->
                  d' v = init_domains single_apt v).
Proof.
  apply (enforce_node_consistency_exact single_apt (init_domains single_apt)).
  intros v _. unfold init_domains. simpl. distinct_words.
Defined.

(** ** [revise] makes one arc consistent *)

Section Revise.

Variable cw : Crossword.

Lemma has_match_true (i j : nat) (w : string) (dy : list string) :
  has_match i j w dy = Ret true ->
  exists w', In w' dy /\
    exists c, String.get i w = Some c /\ String.get j w' = Some c.
Proof.
  induction dy as [ | aword dy IH]; simpl; intro H; [discriminate | ].
  inv_bind H. inv_bind H. apply str_index_ret in Hx, Hx0.
  destruct (ascii_eqb x x0) eqn:E.
  - apply ascii_eqb_true in E. subst x0.
    exists aword. split; [now left | now exists x].
  - destruct (IH H) as (w' & Hin & Hc). exists w'. split; [now right | exact Hc].
Qed.

Lemma has_match_false (i j : nat) (w : string) (dy : list string) :
  has_match i j w dy = Ret false ->
  forall w' c, In w' dy -> String.get i w = Some c ->
               String.get j w' <> Some c.
Proof.
  induction dy as [ | aword dy IH]; simpl; intros H w' c Hin Hc; [destruct Hin | ].
  inv_bind H. inv_bind H. apply str_index_ret in Hx, Hx0.
  destruct (ascii_eqb x x0) eqn:E; [discriminate | ].
  destruct Hin as [<- | Hin]; [ | now apply (IH H)].
  intro Hj. rewrite Hc in Hx. rewrite Hj in Hx0.
  injection Hx as <-. injection Hx0 as <-.
  assert (ascii_eqb c c = true) by now apply ascii_eqb_true.
  congruence.
Qed.

Lemma revise_scan_exact (i j : nat) (dy dx : list string) :
  forall removes revised r b,
    revise_scan i j dy dx removes revised = Ret (r, b) ->
    (forall w, In w dx -> exists m, has_match i j w dy = Ret m)
    /\ (forall w, In w r <->
                  In w removes \/
                  (In w dx /\ has_match i j w dy = Ret false)).
Proof.
  induction dx as [ | w dx IH]; simpl; intros removes revised r b H.
  - injection H as <- <-. split; [intros w [] | ]. intro w. tauto.
  - inv_bind H. destruct x.
    + apply IH in H as [H1 H2]. split.
      * intros w' [<- | Hw']; [now exists true | now apply H1].
      * intro w'. rewrite H2. split; [tauto | ].
        intros [Hr | [[<- | Hin] Hm]]; [tauto | congruence | tauto].
    + apply IH in H as [H1 H2]. split.
      * intros w' [<- | Hw']; [now exists false | now apply H1].
      * intro w'. rewrite H2, set_add_iff. split.
        -- intros [[-> | Hr] | [Hin Hm]]; [right; split; [now left | exact Hx] | tauto | tauto].
        -- intros [Hr | [[<- | Hin] Hm]]; tauto.
Qed.

Lemma revise_others (x y : Var) (d d' : Domains) (b : bool) :
  revise cw x y d = Ret (b, d') -> forall v, v <> x -> d' v = d v.
Proof.
  unfold revise. destruct (overlaps cw x y) as [[i j] | ]; intros H v Hv.
  - inv_bind H. destruct x0 as [removes revised]. inv_bind H.
    injection H as <- <-. now apply update_other.
  - now injection H as <- <-.
Qed.

Lemma revise_not_revised (x y : Var) (d d' : Domains) :
  revise cw x y d = Ret (false, d') -> forall v, d' v = d v.
Proof.
  intros H v. destruct (Var_eq_dec v x) as [-> | N];
    [ | eapply revise_others; eassumption].
  unfold revise in H. destruct (overlaps cw x y) as [[i j] | ].
  - inv_bind H. destruct x0 as [removes revised]. inv_bind H.
    injection H as -> <-. rewrite update_same.
    apply revise_scan_ret in Hx as (_ & _ & Hb).
    destruct removes as [ | w removes].
    + simpl in Hx0. now inv_ret Hx0.
    + assert (false = true); [ | discriminate].
      apply Hb; [split; congruence | discriminate].
  - now injection H as <-.
Qed.

Lemma revise_exact (x y : Var) (d d' : Domains) (b : bool) :
  revise cw x y d = Ret (b, d') ->
  NoDup (d x) -> x <> y ->
  (forall v, v <> x -> d' v = d v)
  /\ (forall w, In w (d' x) <-> In w (d x) /\ supported cw d' x y w)
  /\ (b = true <-> exists w, In w (d x) /\ ~ In w (d' x)).
Proof.
  intros H Hn Hxy.
  assert (Ho := revise_others x y d d' b H).
  split; [exact Ho | ].
  assert (Hy : d' y = d y) by (apply Ho; congruence).
  unfold supported. rewrite Hy. clear Ho Hy.
  unfold revise in H. destruct (overlaps cw x y) as [[i j] | ] eqn:Eo.
  - inv_bind H. destruct x0 as [removes revised]. inv_bind H.
    injection H as <- <-. rewrite update_same.
    destruct (revise_scan_ret _ _ _ _ _ _ _ _ Hx) as (_ & _ & Hb).
    destruct (revise_scan_exact _ _ _ _ _ _ _ _ Hx) as [Hm Hr].
    assert (Hin : forall w, In w x0 <-> In w (d x) /\ ~ In w removes).
    { intro w. split.
      - intro Hw. split; [now apply (remove_each_incl string_dec _ _ _ Hx0) | ].
        intro Hw'. now apply (remove_each_drops string_dec _ _ _ w Hn Hx0 Hw').
      - intros [Hw Hw']. now apply (remove_each_keeps string_dec _ _ _ w Hx0). }
    split.
    + intro w. rewrite Hin, Hr. split.
      * intros [Hw Hnot]. split; [exact Hw | ].
        intros i' j' E. injection E as <- <-.
        destruct (Hm w Hw) as [[ | ] Hhm]; [now apply has_match_true | tauto].
      * intros [Hw Hs]. split; [exact Hw | ].
        intros [[] | [_ Hf]].
        destruct (Hs i j eq_refl) as (w' & Hw' & c & Hc & Hc').
        now apply (has_match_false _ _ _ _ Hf w' c).
    + rewrite (Hb (conj (fun E => False_ind _ (diff_false_true E))
                        (fun E => False_ind _ (E eq_refl)))).
      split.
      * intro Hne. destruct removes as [ | w removes]; [congruence | ].
        exists w. assert (Hw : In w (w :: removes)) by now left.
        split; [ | rewrite Hin; tauto].
        apply Hr in Hw as [[] | [Hw _]]. exact Hw.
      * intros (w & Hw & Hnot) E. subst removes.
        apply Hnot, Hin. split; [exact Hw | intros []].
  - injection H as <- <-. split.
    + intro w. split; [ | tauto]. intro Hw. split; [exact Hw | discriminate].
    + split; [discriminate | ]. intros (w & Hw & Hnot). contradiction.
Qed.

(** X2.  [revise(x, y)] touches no domain but that of [x]; the words it
    leaves in the domain of [x] are exactly the old ones that have a
    partner in the domain of [y] at the overlap (all of them when the two
    slots do not overlap); and it returns [True] exactly when it removed a
    word. *)
Theorem revise_makes_arc_consistent (x y : Var) (d d' : Domains) (b : bool) :
  revise cw x y d = Ret (b, d') ->
  NoDup (d x) -> x <> y ->
  (forall v, v <> x -> d' v = d v)
  /\ (forall w, In w (d' x) <-> In w (d x) /\ supported cw d' x y w)
  /\ (b = true <-> exists w, In w (d x) /\ ~ In w (d' x)).
Proof. apply revise_exact. Qed.

End Revise.

(** ** The outcome of [ac3] and empty domains *)

Section Ac3Outcome.

Variable cw : Crossword.

Lemma ac3_loop_outcome (fuel : nat) :
  forall arcs d b d', ac3_loop cw fuel arcs d = Ret (b, d') ->
    (b = false -> exists x, d' x = [])
    /\ (b = true -> forall v, d v <> [] -> d' v <> []).
Proof.
  induction fuel as [ | fuel IH]; simpl; intros arcs d b d' H; [discriminate | ].
  destruct (list_pop arcs) as [[[x y] arcs'] | ].
  - inv_bind H. destruct x0 as [revised d1]. simpl in H.
    destruct revised.
    + destruct (List.length (d1 x) =? 0) eqn:Ez.
      * injection H as <- <-. split; [ | discriminate].
        intros _. exists x. now apply length_zero_nil.
      * apply IH in H as [H1 H2]. split; [exact H1 | ].
        intros Hb v Hv. apply (H2 Hb).
        destruct (Var_eq_dec v x) as [-> | N].
        -- intro E. rewrite E in Ez. discriminate.
        -- now rewrite (revise_others cw _ _ _ _ _ Hx v N).
    + apply IH in H as [H1 H2]. split; [exact H1 | ].
      intros Hb v Hv. apply (H2 Hb).
      now rewrite (revise_not_revised cw _ _ _ _ Hx v).
  - injection H as <- <-. split; [discriminate | trivial].
Qed.

Lemma ac3_loop_empties_slot (fuel : nat) :
  forall arcs d d', arcs_in_puzzle cw arcs ->
    ac3_loop cw fuel arcs d = Ret (false, d') ->
    exists x, In x (variables cw) /\ d' x = [].
Proof.
  induction fuel as [ | fuel IH]; simpl; intros arcs d d' Ha H; [discriminate | ].
  destruct (list_pop arcs) as [[[x y] arcs'] | ] eqn:Ep; [ | discriminate].
  apply list_pop_some in Ep. subst arcs.
  assert (Hx : In x (variables cw)).
  { apply (Ha (x, y)). apply in_or_app. right. now left. }
  assert (Ha' : arcs_in_puzzle cw arcs').
  { intros a Hin. apply Ha. apply in_or_app. now left. }
  inv_bind H. destruct x0 as [revised d1]. simpl in H.
  destruct revised.
  - destruct (List.length (d1 x) =? 0) eqn:Ez.
    + injection H as <-. exists x. split; [exact Hx | now apply length_zero_nil].
    + apply IH in H; [exact H | ].
      now apply enqueue_neighbors_spec.
  - apply IH in H; [exact H | exact Ha'].
Qed.

(** X3.  When [ac3] returns [True], every slot whose domain was not empty
    before still has a word.  When it returns [False], having run on its
    own initial arcs or on seed arcs between slots of the crossword, some
    slot of the crossword has an empty domain in the store it leaves. *)
Theorem ac3_outcome_and_empty_domains (arcs : option (list (Var * Var)))
    (d d' : Domains) (b : bool) :
  ac3 cw arcs d = Ret (b, d') ->
  (b = false ->
   (forall l, arcs = Some l -> arcs_in_puzzle cw l) ->
   exists x, In x (variables cw) /\ d' x = [])
  /\ (b = true -> forall v, d v <> [] -> d' v <> []).
Proof.
  intros H. split.
  - intros -> Ha. unfold ac3 in H.
    apply ac3_loop_empties_slot in H; [exact H | ].
    destruct arcs as [[ | a l] | ].
    + apply initial_arcs_in.
    + now apply Ha.
    + apply initial_arcs_in.
  - unfold ac3 in H. now apply ac3_loop_outcome in H.
Qed.

End Ac3Outcome.

Lemma revise_makes_arc_consistent_witness :
  revise cross_cat_arc_dog slot_across slot_down (node_store cross_cat_arc_dog)
  = Ret (true, revised_store cross_cat_arc_dog slot_across slot_down
                 (node_store cross_cat_arc_dog))
  /\ (forall w,
        In w (revised_store cross_cat_arc_dog slot_across slot_down
                (node_store cross_cat_arc_dog) slot_across) <->
        In w (node_store cross_cat_arc_dog slot_across)
        /\ supported cross_cat_arc_dog
             (revised_store cross_cat_arc_dog slot_across slot_down
                (node_store cross_cat_arc_dog))
             slot_across slot_down w).
Proof.
  assert (H : revise cross_cat_arc_dog slot_across slot_down
                (node_store cross_cat_arc_dog)
              = Ret (true, revised_store cross_cat_arc_dog slot_across slot_down
                             (node_store cross_cat_arc_dog)))
    by (vm_compute; reflexivity).
  split; [exact H | ].
  apply (revise_makes_arc_consistent cross_cat_arc_dog slot_across slot_down
           _ _ _ H).
  - vm_compute. distinct_words.
  - discriminate.
Defined.

Lemma ac3_outcome_and_empty_domains_witness :
  arcs_in_puzzle cross_cat_dog [(slot_across, slot_down)]
  /\ ac3 cross_cat_dog (Some [(slot_across, slot_down)])
         (node_store cross_cat_dog)
     = Ret (false, propagated cross_cat_dog)
  /\ exists x, In x (variables cross_cat_dog) /\ propagated cross_cat_dog x = [].
Proof.
  assert (Ha : arcs_in_puzzle cross_cat_dog [(slot_across, slot_down)]).
  { intros a [<- | []]. split; [now left | right; now left]. }
  assert (H : ac3 cross_cat_dog (Some [(slot_across, slot_down)])
                (node_store cross_cat_dog)
              = Ret (false, propagated cross_cat_dog))
    by (vm_compute; reflexivity).
  split; [exact Ha | split; [exact H | ]].
  assert (Hl : forall l, Some [(slot_across, slot_down)] = Some l ->
                 arcs_in_puzzle cross_cat_dog l).
  { intros l E. injection E as <-. exact Ha. }
  exact (proj1 (ac3_outcome_and_empty_domains cross_cat_dog _ _ _ _ H)
               eq_refl Hl).
Defined.

(** ** Propagation never loses a solution *)

Section KeepsSolutions.

Variable cw : Crossword.
Hypothesis Hwf : wf_crossword cw.

Lemma solution_word (d : Domains) (sol : Assignment) (v : Var) :
  is_solution cw d sol -> In v (variables cw) ->
  exists w, In (v, w) sol /\ In w (d v) /\ String.length w = var_length v.
Proof.
  intros (_ & Hk & Hl & _ & _ & Hd) Hv.
  apply Hk in Hv. unfold keys in Hv. apply in_map_iff in Hv as ([v' w] & E & Hin).
  simpl in E. subst v'. exists w. split; [exact Hin | split; [now apply Hd | now apply Hl]].
Qed.

Lemma solution_entry_unique (d : Domains) (sol : Assignment) (v : Var)
    (w w' : string) :
  is_solution cw d sol -> In (v, w) sol -> In (v, w') sol -> w = w'.
Proof.
  intros (Hn & _) H1 H2.
  apply (in_lookup _ _ _ Hn) in H1. apply (in_lookup _ _ _ Hn) in H2.
  congruence.
Qed.

Lemma solution_change_store (d d' : Domains) (sol : Assignment) :
  is_solution cw d sol ->
  (forall v w, In (v, w) sol -> In w (d v) -> In w (d' v)) ->
  is_solution cw d' sol.
Proof.
  intros (H1 & H2 & H3 & H4 & H5 & H6) H. repeat split; trivial.
  - now apply H2.
  - now apply H2.
  - intros v w Hin. apply H; [exact Hin | now apply H6].
Qed.

Lemma solution_words_match (d : Domains) (sol : Assignment) (x y : Var)
    (wx wy : string) (i j : nat) :
  is_solution cw d sol -> In (x, wx) sol -> In (y, wy) sol ->
  In y (variables cw) ->
  overlaps cw x y = Some (i, j) ->
  exists c, String.get i wx = Some c /\ String.get j wy = Some c.
Proof.
  intros Hsol Hx Hy Hyv Ho.
  pose proof Hsol as (_ & _ & Hl & Hag & _ & _).
  destruct (wf_range cw Hwf _ _ _ _ Ho) as [Hi Hj].
  destruct (get_in_range wx i) as [c Hc]; [now rewrite (Hl x wx Hx) | ].
  exists c. split; [exact Hc | ].
  destruct (Var_eq_dec x y) as [-> | N].
  - pose proof (wf_sym cw Hwf _ _ _ _ Ho) as Ho'. rewrite Ho in Ho'.
    injection Ho' as E _. subst j.
    now rewrite (solution_entry_unique d sol y wy wx Hsol Hy Hx).
  - rewrite <- (Hag x y wx wy i j Hx Hy); [exact Hc | | exact Ho].
    unfold neighbors. apply filter_In. split; [exact Hyv | ].
    rewrite (wf_sym cw Hwf _ _ _ _ Ho). simpl.
    destruct (Var_eq_dec y x); [congruence | reflexivity].
Qed.

Lemma revise_keeps_solution (x y : Var) (d d' : Domains) (b : bool)
    (sol : Assignment) :
  revise cw x y d = Ret (b, d') ->
  In y (variables cw) ->
  is_solution cw d sol -> is_solution cw d' sol.
Proof.
  intros H Hy Hsol. apply (solution_change_store d d' sol Hsol).
  intros v w Hin Hw.
  destruct (Var_eq_dec v x) as [-> | N];
    [ | now rewrite (revise_others cw _ _ _ _ _ H v N)].
  unfold revise in H. destruct (overlaps cw x y) as [[i j] | ] eqn:Eo.
  - inv_bind H. destruct x0 as [removes revised]. inv_bind H.
    injection H as <- <-. rewrite update_same.
    apply (remove_each_keeps string_dec _ _ _ w Hx0 Hw).
    intro Hr. apply (revise_scan_exact _ _ _ _ _ _ _ _ Hx) in Hr
      as [[] | [_ Hf]].
    destruct (solution_word d sol y Hsol Hy) as (wy & Hwy & Hdy & _).
    destruct (solution_words_match d sol x y w wy i j Hsol Hin Hwy Hy Eo)
      as (c & Hc & Hc').
    now apply (has_match_false _ _ _ _ Hf wy c).
  - now injection H as <- <-.
Qed.

Lemma ac3_loop_keeps_solution (sol : Assignment) (fuel : nat) :
  forall arcs d b d',
    arcs_in_puzzle cw arcs -> is_solution cw d sol ->
    ac3_loop cw fuel arcs d = Ret (b, d') ->
    b = true /\ is_solution cw d' sol.
Proof.
  induction fuel as [ | fuel IH]; simpl; intros arcs d b d' Ha Hsol H;
    [discriminate | ].
  destruct (list_pop arcs) as [[[x y] arcs'] | ] eqn:Hp.
  - apply list_pop_some in Hp. subst arcs.
    destruct (Ha (x, y)) as [Hx Hy]; [apply in_or_app; right; now left | ].
    simpl in Hx, Hy.
    assert (Ha' : arcs_in_puzzle cw arcs')
      by (intros a Hin; apply Ha, in_or_app; now left).
    inv_bind H. destruct x0 as [revised d1]. simpl in H, Hx0.
    pose proof (revise_keeps_solution x y d d1 revised sol Hx0 Hy Hsol) as Hsol1.
    destruct revised.
    + destruct (List.length (d1 x) =? 0) eqn:Ez.
      * exfalso. apply length_zero_nil in Ez.
        destruct (solution_word d1 sol x Hsol1 Hx) as (w & _ & Hw & _).
        rewrite Ez in Hw. destruct Hw.
      * apply (IH _ _ _ _ (proj1 (enqueue_neighbors_spec cw x y arcs' Hx Ha'))
                 Hsol1 H).
    + apply (IH _ _ _ _ Ha' Hsol1 H).
  - injection H as <- <-. now split.
Qed.

Lemma enforce_node_keeps_solution (d d' : Domains) (sol : Assignment) :
  is_solution cw d sol -> enforce_node_consistency cw d = Ret d' ->
  is_solution cw d' sol.
Proof.
  intros Hsol H. apply (solution_change_store d d' sol Hsol).
  intros v w Hin Hw. pose proof Hsol as (_ & _ & Hl & _).
  eapply enforce_node_loop_keeps; [exact H | exact Hw | now apply Hl].
Qed.

Lemma ac3_keeps_solution (d d' : Domains) (b : bool) (sol : Assignment) :
  is_solution cw d sol -> ac3 cw None d = Ret (b, d') ->
  b = true /\ is_solution cw d' sol.
Proof.
  intros Hsol H. unfold ac3 in H.
  eapply ac3_loop_keeps_solution; [apply initial_arcs_in | exact Hsol | exact H].
Qed.

End KeepsSolutions.


Lemma is_solution_of_consistent (cw : Crossword) (d : Domains)
    (sol : Assignment) :
  wf_crossword cw ->
  NoDup (keys sol) ->
  (forall v, In v (keys sol) <-> In v (variables cw)) ->
  consistent cw sol = Ret true ->
  (forall v w, In (v, w) sol -> In w (d v)) ->
  is_solution cw d sol.
Proof.
  intros Hwf Hn Hk Hc Hd.
  apply (consistent_true_iff cw Hwf sol Hn) in Hc as (Hl & Ha & Hdist).
  apply all_distinct_nodup in Hdist. now repeat split; try apply Hk.
Qed.



(** ** [assignment_complete] *)

Section Complete.

Variable cw : Crossword.

Lemma remove_each_missing (xs : list Var) :
  forall s x, In x xs -> ~ In x s ->
    remove_each Var_eq_dec xs s = Raise KeyError.
Proof.
  induction xs as [ | x0 xs IH]; simpl; intros s x Hx Hs; [destruct Hx | ].
  unfold py_remove. destruct (set_mem Var_eq_dec x0 s) eqn:E; [ | reflexivity].
  simpl. apply (set_mem_correct1 Var_eq_dec) in E.
  destruct Hx as [-> | Hx]; [contradiction | ].
  apply (IH _ x Hx). intro Hin. apply Hs.
  now apply (set_remove_1 Var_eq_dec x x0).
Qed.

(** X5.  [assignment_complete] on a dict over a set of slots: a key that
    is no slot of the crossword makes it raise KeyError; when every key is
    a slot and some slot has no entry it returns [False] without calling
    [consistent]; and it returns [True] exactly when the keys are the slots
    of the crossword and [consistent] returns [True]. *)
Theorem assignment_complete_outcomes (a : Assignment) :
  NoDup (variables cw) ->
  NoDup (keys a) ->
  ((exists k, In k (keys a) /\ ~ In k (variables cw)) ->
   assignment_complete cw a = Raise KeyError)
  /\ (incl (keys a) (variables cw) ->
      (exists v, In v (variables cw) /\ ~ In v (keys a)) ->
      assignment_complete cw a = Ret false)
  /\ (assignment_complete cw a = Ret true <->
      (forall v, In v (keys a) <-> In v (variables cw))
      /\ consistent cw a = Ret true).
Proof.
  intros Hv Hk. split; [ | split].
  - intros (k & Hin & Hout). unfold assignment_complete.
    now rewrite (remove_each_missing (keys a) (variables cw) k Hin Hout).
  - intros Hi (v & Hin & Hout). unfold assignment_complete.
    destruct (remove_each_total Var_eq_dec (keys a) (variables cw) Hk Hi)
      as [all Hall].
    rewrite Hall. simpl.
    pose proof (remove_each_keeps Var_eq_dec _ _ _ v Hall Hin Hout) as Hv'.
    destruct all; [destruct Hv' | reflexivity].
  - split.
    + intro H. pose proof (assignment_complete_true cw a H) as [Hc Hall].
      split; [ | exact Hc]. intro v. split; [ | apply Hall].
      intro Hin. destruct (in_dec Var_eq_dec v (variables cw)) as [ | Hout];
        [assumption | ].
      unfold assignment_complete in H.
      rewrite (remove_each_missing (keys a) (variables cw) v Hin Hout) in H.
      discriminate.
    + intros [Hkv Hc]. unfold assignment_complete.
      destruct (remove_each_total Var_eq_dec (keys a) (variables cw) Hk)
        as [all Hall]; [intros v Hin; now apply Hkv | ].
      rewrite Hall. simpl.
      destruct all as [ | v all]; [exact Hc | exfalso].
      apply (remove_each_drops Var_eq_dec _ _ _ v Hv Hall); [ | now left].
      apply Hkv. apply (remove_each_incl Var_eq_dec _ _ _ Hall). now left.
Qed.

End Complete.

Lemma assignment_complete_outcomes_witness :
  assignment_complete cross_cat_arc_dog [(slot_down, "arc"%string)]
  = Ret false
  /\ assignment_complete single_ab cat_arc = Raise KeyError.
Proof.
  split.
  - apply (assignment_complete_outcomes cross_cat_arc_dog
             [(slot_down, "arc"%string)]).
    + distinct_words.
    + distinct_words.
    + intros v [<- | []]. simpl. tauto.
    + exists slot_across. simpl. split; [tauto | intros [E | []]; discriminate].
  - apply (assignment_complete_outcomes single_ab cat_arc).
    + distinct_words.
    + distinct_words.
    + exists slot_down. simpl. split; [tauto | intros [E | []]; discriminate].
Defined.

(** ** [select_unassigned_variable] *)

Lemma select_unassigned_variable_full (cw : Crossword) (d : Domains)
    (a : Assignment) :
  unassigned_vars cw a = [] ->
  select_unassigned_variable cw d a = Raise IndexError.
Proof.
  intro H. unfold select_unassigned_variable.
  destruct (scan_unassigned_spec cw d a) as [H1 _].
  destruct (scan_unassigned cw d a) as [unassigned shortest]. simpl in H1.
  rewrite H1, H. reflexivity.
Qed.

(** X6.  [select_unassigned_variable] raises IndexError when every slot of
    the crossword is assigned ([bestVars[0]] on an empty list); in every
    other state it returns a slot of the crossword that has no entry in the
    assignment. *)
Theorem select_unassigned_variable_outcomes (cw : Crossword) (d : Domains)
    (a : Assignment) :
  (unassigned_vars cw a = [] ->
   select_unassigned_variable cw d a = Raise IndexError)
  /\ (unassigned_vars cw a <> [] ->
      exists v, select_unassigned_variable cw d a = Ret v
                /\ In v (variables cw) /\ assigned v a = false).
Proof.
  split; [apply select_unassigned_variable_full | ].
  intro H. destruct (select_unassigned_variable_total cw d a H) as [v Hv].
  exists v. split; [exact Hv | now apply select_unassigned_variable_ret in Hv].
Qed.

(** X7.  Where no unassigned slot has an empty domain, the slot
    [select_unassigned_variable] returns is unassigned, no unassigned slot
    has fewer words left in its domain, and no unassigned slot with as many
    words left has more neighbors. *)
Theorem select_minimum_remaining_values (cw : Crossword) (d : Domains)
    (a : Assignment) (v : Var) :
  (forall u, In u (unassigned_vars cw a) -> d u <> []) ->
  select_unassigned_variable cw d a = Ret v ->
  In v (unassigned_vars cw a)
  /\ (forall u, In u (unassigned_vars cw a) ->
                List.length (d v) <= List.length (d u))
  /\ (forall u, In u (unassigned_vars cw a) ->
                List.length (d u) = List.length (d v) ->
                List.length (neighbors cw u) <= List.length (neighbors cw v)).
Proof.
  intros Hn Hs. exact (select_unassigned_variable_mrv cw d a Hn v Hs).
Qed.

Lemma select_minimum_remaining_values_witness :
  In slot_across (unassigned_vars cross_five [])
  /\ (forall u, In u (unassigned_vars cross_five []) ->
                List.length (propagated cross_five slot_across)
                <= List.length (propagated cross_five u))
  /\ (forall u, In u (unassigned_vars cross_five []) ->
                List.length (propagated cross_five u)
                = List.length (propagated cross_five slot_across) ->
                List.length (neighbors cross_five u)
                <= List.length (neighbors cross_five slot_across)).
Proof.
  apply (select_minimum_remaining_values cross_five (propagated cross_five)
           [] slot_across).
  - intros u [<- | [<- | []]]; vm_compute; discriminate.
  - vm_compute. reflexivity.
Defined.

(** ** [consistent] raises nothing on words of the right length *)

(** X8.  On an assignment whose words all have the lengths of their slots,
    over a well-formed crossword, [consistent] raises no exception: it
    returns [True] or [False]. *)
Theorem consistent_returns_on_fitting_words (cw : Crossword) (a : Assignment) :
  wf_crossword cw -> lengths_match a ->
  exists b, consistent cw a = Ret b.
Proof. intros Hwf Hl. now apply consistent_total. Qed.

Lemma consistent_returns_on_fitting_words_witness :
  exists b,
    consistent cross_cat_arc_dog
               [(slot_across, "dog"%string); (slot_down, "cat"%string)]
    = Ret b.
Proof.
  apply (consistent_returns_on_fitting_words cross_cat_arc_dog).
  - apply wf_cross. distinct_words.
  - intros v w [E | [E | []]]; injection E as <- <-; reflexivity.
Defined.

(** ** The search finds a solution whenever there is one *)

Lemma remove_each_ret_nodup (A : Type)
    (dec : forall x y : A, {x = y} + {x <> y}) (xs : list A) :
  forall s s', NoDup s -> remove_each dec xs s = Ret s' ->
    NoDup xs /\ incl xs s.
Proof.
  induction xs as [ | x xs IH]; simpl; intros s s' Hs H.
  - split; [constructor | intros y []].
  - inv_bind H. apply py_remove_ret in Hx as [Hin ->].
    destruct (IH _ _ (set_remove_nodup dec x Hs) H) as [Hn Hi].
    split.
    + constructor; [ | exact Hn]. intro Hx. apply Hi in Hx.
      now apply (set_remove_2 dec Hs) in Hx.
    + intros y [<- | Hy]; [exact Hin | ].
      apply (set_remove_1 dec y x). now apply Hi.
Qed.

Lemma map_injective_on (A B : Type) (f : A -> B) (l : list A) :
  NoDup (map f l) ->
  forall x y, In x l -> In y l -> f x = f y -> x = y.
Proof.
  induction l as [ | z l IH]; simpl; intros Hn x y Hx Hy E; [destruct Hx | ].
  inversion Hn as [ | ? ? Hz Hn']; subst.
  destruct Hx as [-> | Hx], Hy as [-> | Hy]; trivial.
  - exfalso. apply Hz. rewrite E. now apply in_map.
  - exfalso. apply Hz. rewrite <- E. now apply in_map.
  - now apply IH.
Qed.

Lemma nodup_values_incl (a sol : Assignment) :
  NoDup (keys a) -> NoDup (values sol) -> incl a sol -> NoDup (values a).
Proof.
  intros Hk Hv. induction a as [ | [v w] a IH]; simpl; intro Hi; [constructor | ].
  inversion Hk as [ | ? ? Hv' Hk']; subst.
  constructor.
  - intro Hin. unfold values in Hin. apply in_map_iff in Hin as ([v' w'] & E & Hin).
    simpl in E. subst w'.
    assert (E : (v', w) = (v, w)).
    { apply (map_injective_on _ _ snd sol Hv); [ | | reflexivity].
      - apply Hi. now right.
      - apply Hi. now left. }
    injection E as ->. apply Hv'. change v with (fst (v, w)). now apply in_map.
  - apply IH; [exact Hk' | ]. intros p Hp. apply Hi. now right.
Qed.

Section SearchCorrect.

Variable cw : Crossword.
Hypothesis Hwf : wf_crossword cw.

Lemma complete_is_solution (d : Domains) (a : Assignment) :
  assignment_complete cw a = Ret true ->
  (forall v w, In (v, w) a -> In w (d v)) ->
  is_solution cw d a.
Proof.
  intros H Hd. pose proof (assignment_complete_true cw a H) as [Hc Hall].
  unfold assignment_complete in H. inv_bind H.
  destruct (remove_each_ret_nodup _ Var_eq_dec _ _ _ (wf_variables cw Hwf) Hx)
    as [Hn Hi].
  apply is_solution_of_consistent; trivial.
  intro v. split; [apply Hi | apply Hall].
Qed.

Lemma sub_assignment_consistent (d : Domains) (sol a : Assignment) :
  is_solution cw d sol -> incl a sol -> NoDup (keys a) ->
  consistent cw a = Ret true.
Proof.
  intros (_ & _ & Hl & Hag & Hv & _) Hi Hn.
  apply (consistent_true_iff cw Hwf a Hn). split; [ | split].
  - intros v w Hin. apply Hl. now apply Hi.
  - intros v n wv wn i j Hv' Hn' Hnb Ho.
    apply (Hag v n wv wn i j); trivial; now apply Hi.
  - apply all_distinct_nodup. eapply nodup_values_incl; eassumption.
Qed.

Lemma try_words_complete (rec : State -> res State) (variable : Var)
    (s : State) (sol : Assignment) :
  search_ready cw s ->
  In variable (variables cw) ->
  assigned variable (assignment s) = false ->
  is_solution cw (domains s) sol ->
  incl (assignment s) sol ->
  (forall s1, search_ready cw s1 ->
     List.length (unassigned_vars cw (assignment s1))
     < List.length (unassigned_vars cw (assignment s)) ->
     exists r, rec s1 = Ret r /\ frame_ok cw s1 r
               /\ (domains s1 = domains s -> incl (assignment s1) sol ->
                   assignment_complete cw (assignment r) = Ret true)) ->
  forall ws,
    (forall w, In w ws -> String.length w = var_length variable) ->
    (exists wv, In (variable, wv) sol /\ In wv ws) ->
    exists s', try_words cw rec variable ws s = Ret s'
               /\ assignment_complete cw (assignment s') = Ret true.
Proof.
  intros (Hnc & Hnd & Hin & Hc) Hv Ha Hsol Hsub Hrec.
  assert (Hl : lengths_match (assignment s))
    by (now apply (consistent_true_iff cw Hwf _ Hnd) in Hc).
  induction ws as [ | w ws IH]; intros Hw (wv & Hwv & Hwin); [destruct Hwin | ].
  assert (IH' : w <> wv ->
                exists s', try_words cw rec variable ws s = Ret s'
                  /\ assignment_complete cw (assignment s') = Ret true).
  { intro Hne. apply IH; [intros x Hx; apply Hw; now right | ].
    exists wv. split; [exact Hwv | ]. destruct Hwin as [E | Hi]; [congruence | exact Hi]. }
  cbn [try_words]. unfold set_assignment. cbn [assignment domains].
  rewrite (dict_set_fresh _ _ _ Ha).
  assert (Hl1 : lengths_match (assignment s ++ [(variable, w)])).
  { intros x wx Hx. apply in_app_or in Hx as [Hx | [E | []]]; [now apply Hl | ].
    injection E as <- <-. apply Hw. now left. }
  assert (Hnd1 : NoDup (keys (assignment s ++ [(variable, w)]))).
  { rewrite keys_app. simpl. apply NoDup_app; [exact Hnd | repeat constructor; intros [] | ].
    intros x Hx [<- | []]. now apply not_assigned_in in Ha. }
  assert (Hin1 : incl (keys (assignment s ++ [(variable, w)])) (variables cw)).
  { rewrite keys_app. simpl. intros x Hx.
    apply in_app_or in Hx as [Hx | [<- | []]]; [now apply Hin | exact Hv]. }
  assert (Hpop : dict_pop variable (assignment s ++ [(variable, w)])
                 = Ret (assignment s)).
  { rewrite <- (dict_set_fresh _ w _ Ha). now apply dict_pop_set_fresh. }
  assert (Hsub1 : w = wv -> incl (assignment s ++ [(variable, w)]) sol).
  { intros -> p Hp. apply in_app_or in Hp as [Hp | [<- | []]];
      [now apply Hsub | exact Hwv]. }
  destruct (consistent_total cw Hwf _ Hl1) as [ok Hok]. rewrite Hok.
  cbn [bind]. destruct ok.
  - destruct (Hrec (mkState (domains s) (assignment s ++ [(variable, w)])))
      as (r & Hr & (Hd & Hcomp & _) & Hfound).
    { repeat split; trivial. }
    { now apply unassigned_vars_extend. }
    rewrite Hr. cbn [bind]. cbn [domains assignment] in Hd, Hcomp, Hfound.
    destruct Hcomp as [Hcomp | Hcomp].
    + rewrite Hcomp. cbn [bind]. now exists r.
    + destruct (assignment_complete_total cw _ true Hnd1 Hin1 Hok) as [c Hc1].
      rewrite Hcomp, Hc1. cbn [bind]. destruct c.
      * exists r. split; [reflexivity | now rewrite Hcomp].
      * rewrite Hpop. cbn [bind]. rewrite Hd.
        destruct s as [ds a]. apply IH'. intro E.
        specialize (Hfound eq_refl (Hsub1 E)). rewrite Hcomp in Hfound.
        cbn [assignment] in Hfound, Hc1. congruence.
  - rewrite Hpop. cbn [bind]. destruct s as [ds a]. apply IH'. intro E.
    cbn [assignment domains] in *.
    rewrite (sub_assignment_consistent ds sol _ Hsol (Hsub1 E) Hnd1) in Hok.
    discriminate.
Qed.

Lemma backtrack_complete (sol : Assignment) (fuel : nat) :
  forall s, search_ready cw s ->
    List.length (unassigned_vars cw (assignment s)) < fuel ->
    is_solution cw (domains s) sol ->
    incl (assignment s) sol ->
    exists s', backtrack cw fuel s = Ret s'
               /\ assignment_complete cw (assignment s') = Ret true.
Proof.
  induction fuel as [ | fuel IH]; intros s Hs Hf Hsol Hsub; [lia | ].
  cbn [backtrack].
  pose proof Hs as (Hnc & Hnd & Hin & Hc).
  destruct (assignment_complete_total cw _ true Hnd Hin Hc) as [c Hcomp].
  rewrite Hcomp. cbn [bind]. destruct c; [now exists s | ].
  destruct (select_unassigned_variable_total cw (domains s) (assignment s))
    as [v Hv].
  { now apply assignment_complete_false; [apply (wf_variables cw Hwf) | | ]. }
  rewrite Hv. cbn [bind].
  apply select_unassigned_variable_ret in Hv as [Hv Ha].
  destruct (solution_word cw (domains s) sol v Hsol Hv) as (wv & Hwv & Hdv & _).
  apply (try_words_complete _ _ _ sol); trivial.
  - intros s1 Hs1 Hlt. destruct (backtrack_total cw Hwf fuel s1 Hs1) as [r Hr];
      [lia | ].
    exists r. split; [exact Hr | split; [eapply backtrack_frame; eassumption | ]].
    intros Hd Hsub1. destruct (IH s1 Hs1) as (r' & Hr' & Hcr); trivial; [lia | | ].
    + now rewrite Hd.
    + congruence.
  - intros w Hw. now apply Hnc.
  - now exists wv.
Qed.

End SearchCorrect.

(** X9.  From a state the search reaches (a consistent assignment over
    node-consistent domains of a well-formed crossword, with fuel above
    the number of unassigned slots): if some solution over the domains
    extends the assignment, [backtrack] returns a complete assignment. *)
Theorem backtrack_finds_extension (cw : Crossword) (fuel : nat) (s : State)
    (sol : Assignment) :
  wf_crossword cw ->
  search_ready cw s ->
  List.length (unassigned_vars cw (assignment s)) < fuel ->
  is_solution cw (domains s) sol ->
  incl (assignment s) sol ->
  exists s', backtrack cw fuel s = Ret s'
             /\ assignment_complete cw (assignment s') = Ret true
             /\ is_solution cw (domains s) (assignment s').
Proof.
  intros Hwf Hs Hf Hsol Hsub.
  destruct (backtrack_complete cw Hwf sol fuel s Hs Hf Hsol Hsub)
    as (s' & Hs' & Hc).
  exists s'. split; [exact Hs' | split; [exact Hc | ]].
  apply (complete_is_solution cw Hwf); [exact Hc | ].
  apply backtrack_frame in Hs' as (_ & _ & He).
  intros v w Hin. destruct (He v w Hin) as [Hin' | Hd]; [ | exact Hd].
  destruct Hsol as (_ & _ & _ & _ & _ & Hd). apply Hd. now apply Hsub.
Qed.

(** X10.  On every well-formed crossword [solve] returns a dict, with no
    exception and within its fuel: a solution of the puzzle over the word
    list when one exists, and the empty dict when none exists. *)
Theorem solve_decides_the_puzzle (cw : Crossword) :
  wf_crossword cw ->
  exists a, solve cw = Ret (Some a)
    /\ (is_solution cw (init_domains cw) a
        \/ (a = [] /\ forall sol, ~ is_solution cw (init_domains cw) sol)).
Proof.
  intro Hwf.
  destruct (propagate_correct cw Hwf)
    as (d1 & b & d & H1 & H2 & _ & Hs1 & Hs2 & Hn & _ & _).
  destruct (search_from_empty cw Hwf d Hn) as (s & Hs & Hd & Hc & He).
  simpl in Hd, Hc, He.
  exists (assignment s). split.
  { unfold solve. rewrite H1. cbn [bind]. rewrite H2. cbn [bind].
    rewrite Hs. reflexivity. }
  assert (Hwords : forall v w, In (v, w) (assignment s) ->
                               In w (init_domains cw v)).
  { intros v w Hin. destruct (He v w Hin) as [[] | Hw]. now apply Hs1, Hs2. }
  destruct Hc as [Hc | Hc].
  - left. now apply (complete_is_solution cw Hwf).
  - destruct (assignment_complete cw []) as [[ | ] | e | ] eqn:Ec.
    + left. rewrite Hc. apply (complete_is_solution cw Hwf); [exact Ec | intros v w []].
    + right. split; [exact Hc | ]. intros sol Hsol.
      pose proof (enforce_node_keeps_solution cw _ d1 sol Hsol H1) as Hk1.
      destruct (ac3_keeps_solution cw Hwf d1 d b sol Hk1 H2) as [_ Hk2].
      destruct (backtrack_complete cw Hwf sol (backtrack_fuel cw)
                  (mkState d [])) as (s' & Hs' & Hcs'); trivial.
      * repeat split; simpl; trivial; [constructor | intros x []].
      * unfold backtrack_fuel, unassigned_vars.
        apply Nat.lt_succ_r, filter_length_le.
      * intros p [].
      * rewrite Hs in Hs'. injection Hs' as <-. rewrite Hc in Hcs'. congruence.
    + exfalso. unfold assignment_complete in Ec. simpl in Ec.
      destruct (variables cw); discriminate.
    + exfalso. unfold assignment_complete in Ec. simpl in Ec.
      destruct (variables cw); discriminate.
Qed.

Lemma backtrack_finds_extension_witness :
  exists s',
    backtrack cross_five (backtrack_fuel cross_five)
              (mkState (propagated cross_five) []) = Ret s'
    /\ assignment_complete cross_five (assignment s') = Ret true
    /\ is_solution cross_five (propagated cross_five) (assignment s').
Proof.
  assert (Hwf : wf_crossword cross_five) by (apply wf_cross; distinct_words).
  apply (backtrack_finds_extension cross_five (backtrack_fuel cross_five)
           (mkState (propagated cross_five) []) cot_oar Hwf).
  - repeat split; simpl; [ | constructor | intros x [] ].
    intros v w [<- | [<- | []]] Hw; vm_compute in Hw;
      repeat (destruct Hw as [<- | Hw]; [reflexivity | ]); destruct Hw.
  - vm_compute. lia.
  - apply is_solution_of_consistent.
    + exact Hwf.
    + repeat constructor; simpl; [intros [E | []]; discriminate | tauto].
    + intro v. simpl. tauto.
    + vm_compute. reflexivity.
    + intros v w [E | [E | []]]; injection E as <- <-; vm_compute; tauto.
  - intros p [].
Defined.

Lemma solve_decides_the_puzzle_witness :
  exists a, solve cross_cat_dog = Ret (Some a)
    /\ (is_solution cross_cat_dog (init_domains cross_cat_dog) a
        \/ (a = [] /\
            forall sol,
              ~ is_solution cross_cat_dog (init_domains cross_cat_dog) sol)).
Proof.
  apply (solve_decides_the_puzzle cross_cat_dog).
  apply wf_cross. distinct_words.
Defined.

(** ** [order_domain_values] *)

Lemma insert_by_perm (A : Type) (key : A -> nat) (x : A) (l : list A) :
  Permutation (insert_by key x l) (x :: l).
Proof.
  induction l as [ | y l IH]; simpl; [apply Permutation_refl | ].
  destruct (key x <=? key y); [apply Permutation_refl | ].
  eapply Permutation_trans; [apply perm_skip, IH | apply perm_swap].
Qed.

Lemma sort_by_perm (A : Type) (key : A -> nat) (l : list A) :
  Permutation (sort_by key l) l.
Proof.
  induction l as [ | x l IH]; simpl; [apply Permutation_refl | ].
  eapply Permutation_trans; [apply insert_by_perm | now apply perm_skip].
Qed.

Lemma sorted_map_by (A B : Type) (key : A -> nat) (f : A -> B)
    (g : B -> nat) (l : list A) :
  StronglySorted (fun p q => key p <= key q) l ->
  Forall (fun p => key p = g (f p)) l ->
  StronglySorted (fun x y => g x <= g y) (map f l).
Proof.
  induction 1 as [ | p l Hs IH Hall]; simpl; intro Hk; [constructor | ].
  inversion Hk as [ | ? ? Hp Hk']; subst.
  constructor; [now apply IH | ].
  rewrite Forall_forall in *. intros y Hy.
  apply in_map_iff in Hy as (q & <- & Hq).
  rewrite <- Hp, <- (Hk' q Hq). now apply Hall.
Qed.

Section OrderDomainValues.

Variable cw : Crossword.
Variable d : Domains.

(** The innermost loop adds to the counter the words of the neighbor's
    domain that differ from [w] on the shared cell. *)
Lemma count_mismatch_exact (i j : nat) (w : string) (dn : list string) :
  i < String.length w ->
  (forall w', In w' dn -> j < String.length w') ->
  forall n, count_mismatch (Some (i, j)) w dn n
            = Ret (n + List.length (filter (differ i j w) dn)).
Proof.
  intros Hi. induction dn as [ | w' dn IH]; intros Hj n.
  - simpl. now rewrite Nat.add_0_r.
  - destruct (get_in_range w i Hi) as [c1 E1].
    destruct (get_in_range w' j (Hj w' (or_introl eq_refl))) as [c2 E2].
    cbn [count_mismatch filter]. unfold str_index, differ at 1.
    cbn [subscript bind fst snd]. rewrite E1, E2. cbn [bind].
    rewrite IH by (intros x Hx; apply Hj; now right).
    destruct (ascii_eqb c1 c2); cbn [negb List.length]; f_equal; lia.
Qed.

Lemma num_ruled_out_exact (Hwf : wf_crossword cw) (var : Var)
    (a : Assignment) (w : string) (ns : list Var) :
  node_consistent cw d ->
  String.length w = var_length var ->
  (forall n, In n ns -> In n (neighbors cw var)) ->
  forall k,
    num_ruled_out cw d var a w ns k
    = Ret (k + list_sum
                 (map (fun n => List.length (filter (rules_out cw var n w) (d n)))
                      (filter (fun n => negb (assigned n a)) ns))).
Proof.
  intros Hn Hl. induction ns as [ | n ns IH]; intros Hi k.
  - simpl. now rewrite Nat.add_0_r.
  - assert (IH' : forall k,
               num_ruled_out cw d var a w ns k
               = Ret (k + list_sum
                            (map (fun n => List.length
                                             (filter (rules_out cw var n w) (d n)))
                                 (filter (fun n => negb (assigned n a)) ns))))
      by (apply IH; intros x Hx; apply Hi; now right).
    cbn [num_ruled_out filter].
    destruct (assigned n a); cbn [negb]; [apply IH' | ].
    destruct (neighbors_in cw var n (Hi n (or_introl eq_refl)))
      as (Hnv & _ & [j i] & Ho).
    apply (wf_sym cw Hwf) in Ho.
    destruct (wf_range cw Hwf _ _ _ _ Ho) as [Hr1 Hr2].
    rewrite Ho, (count_mismatch_exact i j w (d n)).
    + cbn [bind map]. rewrite IH'. f_equal.
      assert (E : filter (rules_out cw var n w) (d n)
                  = filter (differ i j w) (d n)).
      { apply filter_ext. intro w'. unfold rules_out. now rewrite Ho. }
      rewrite E. unfold list_sum. cbn [fold_right]. lia.
    + now rewrite Hl.
    + intros w' Hw'. now rewrite (Hn n w' Hnv Hw').
Qed.

Lemma sorting_list_exact (Hwf : wf_crossword cw) (var : Var) (a : Assignment)
    (ws : list string) :
  node_consistent cw d ->
  (forall w, In w ws -> String.length w = var_length var) ->
  sorting_list cw d var a ws
  = Ret (map (fun w => (w, ruled_out_count cw d a var w)) ws).
Proof.
  intros Hn. induction ws as [ | w ws IH]; intro Hl; [reflexivity | ].
  cbn [sorting_list map].
  rewrite (num_ruled_out_exact Hwf var a w (neighbors cw var) Hn);
    [ | apply Hl; now left | trivial ].
  cbn [bind]. rewrite IH by (intros x Hx; apply Hl; now right).
  reflexivity.
Qed.

(** X11.  Over node-consistent domains of a well-formed crossword,
    [order_domain_values] raises nothing; the list it returns holds the
    words of the slot's domain, each as often as the domain does, in
    ascending order of the number of values they rule out: for a word,
    the number of pairs of a neighbor with no entry in the assignment and
    a word of that neighbor's domain whose letter on the shared cell
    differs from the word's own. *)
Theorem order_domain_values_sorts_the_domain (var : Var) (a : Assignment) :
  wf_crossword cw -> node_consistent cw d -> In var (variables cw) ->
  exists ws,
    order_domain_values cw d var a = Ret ws
    /\ Permutation ws (d var)
    /\ StronglySorted
         (fun w1 w2 => ruled_out_count cw d a var w1
                       <= ruled_out_count cw d a var w2) ws.
Proof.
  intros Hwf Hn Hv. unfold order_domain_values.
  rewrite (sorting_list_exact Hwf var a (d var) Hn)
    by (intros w Hw; now apply Hn).
  cbn [bind].
  set (sl := map (fun w => (w, ruled_out_count cw d a var w)) (d var)).
  exists (map fst (sort_by snd sl)).
  split; [reflexivity | split].
  - replace (d var) with (map fst sl).
    + apply Permutation_map, sort_by_perm.
    + unfold sl. rewrite map_map. simpl. apply map_id.
  - apply (sorted_map_by _ _ snd fst (ruled_out_count cw d a var)).
    + apply sort_by_sorted.
    + rewrite Forall_forall. intros p Hp.
      apply (proj1 (sort_by_in _ _ p sl)) in Hp. unfold sl in Hp.
      apply in_map_iff in Hp as (w & <- & _). reflexivity.
Qed.

End OrderDomainValues.

Lemma order_domain_values_sorts_the_domain_witness :
  exists ws,
    order_domain_values cross_five (propagated cross_five) slot_across []
    = Ret ws
    /\ Permutation ws (propagated cross_five slot_across)
    /\ StronglySorted
         (fun w1 w2 =>
            ruled_out_count cross_five (propagated cross_five) [] slot_across w1
            <= ruled_out_count cross_five (propagated cross_five) []
                 slot_across w2) ws.
Proof.
  apply (order_domain_values_sorts_the_domain cross_five
           (propagated cross_five) slot_across []).
  - apply wf_cross. distinct_words.
  - intros v w [<- | [<- | []]] Hw; vm_compute in Hw;
      repeat (destruct Hw as [<- | Hw]; [reflexivity | ]); destruct Hw.
  - simpl. tauto.
Defined.

(** ** [letter_grid] *)

Lemma splice_length (A : Type) (l : list A) (n : nat) (x : A) :
  n < List.length l ->
  List.length (firstn n l ++ x :: skipn (S n) l) = List.length l.
Proof.
  intro H. rewrite length_app, length_firstn.
  change (List.length (x :: skipn (S n) l))
    with (S (List.length (skipn (S n) l))).
  rewrite length_skipn. lia.
Qed.

Lemma splice_nth (A : Type) (l : list A) (n m : nat) (x : A) :
  n < List.length l ->
  nth_error (firstn n l ++ x :: skipn (S n) l) m
  = if m =? n then Some x else nth_error l m.
Proof.
  intro H.
  assert (Hf : List.length (firstn n l) = n) by (rewrite length_firstn; lia).
  destruct (m =? n) eqn:Em.
  - apply Nat.eqb_eq in Em. subst m.
    rewrite nth_error_app2 by lia. rewrite Hf, Nat.sub_diag. reflexivity.
  - apply Nat.eqb_neq in Em. destruct (Nat.lt_ge_cases m n) as [Hlt | Hge].
    + rewrite nth_error_app1 by lia. rewrite nth_error_firstn.
      apply Nat.ltb_lt in Hlt. now rewrite Hlt.
    + rewrite nth_error_app2 by lia. rewrite Hf.
      destruct (m - n) as [ | k] eqn:Ek; [lia | ].
      change (nth_error (x :: skipn (S n) l) (S k))
        with (nth_error (skipn (S n) l) k).
      rewrite nth_error_skipn. f_equal. lia.
Qed.

Lemma list_set_ret (A : Type) (l l' : list A) (n : nat) (x : A) :
  list_set l n x = Ret l' ->
  n < List.length l /\ List.length l' = List.length l
  /\ forall m, nth_error l' m = if m =? n then Some x else nth_error l m.
Proof.
  unfold list_set. destruct (n <? List.length l) eqn:E; intro H; [ | discriminate].
  apply Nat.ltb_lt in E. injection H as <-. split; [exact E | split].
  - now apply splice_length.
  - intro m. now apply splice_nth.
Qed.

Lemma list_set_outcome (A : Type) (l : list A) (n : nat) (x : A) :
  (n < List.length l -> exists l', list_set l n x = Ret l')
  /\ (List.length l <= n -> list_set l n x = Raise IndexError).
Proof.
  unfold list_set. split; intro H.
  - apply Nat.ltb_lt in H. rewrite H. eexists. reflexivity.
  - apply Nat.ltb_ge in H. now rewrite H.
Qed.

Lemma list_get_outcome (A : Type) (l : list A) (n : nat) :
  (n < List.length l -> exists x, list_get l n = Ret x /\ nth_error l n = Some x)
  /\ (List.length l <= n -> list_get l n = Raise IndexError).
Proof.
  unfold list_get. split; intro H.
  - destruct (nth_error l n) as [x | ] eqn:E; [now exists x | ].
    apply nth_error_None in E. lia.
  - apply nth_error_None in H. now rewrite H.
Qed.

Section LetterGrid.

Variables height width : nat.

Lemma row_width (g : Grid) (r : nat) (row : list (option ascii)) :
  Forall (fun row => List.length row = width) g ->
  nth_error g r = Some row -> List.length row = width.
Proof.
  intros Hf Hr. rewrite Forall_forall in Hf. apply Hf.
  eapply nth_error_In. eassumption.
Qed.

Lemma grid_set_outcome (g : Grid) (i j : nat) (c : ascii) :
  List.length g = height ->
  Forall (fun row => List.length row = width) g ->
  (i < height /\ j < width -> exists g', grid_set g i j c = Ret g')
  /\ (~ (i < height /\ j < width) -> grid_set g i j c = Raise IndexError).
Proof.
  intros Hh Hw. unfold grid_set.
  destruct (Nat.lt_ge_cases i (List.length g)) as [Hi | Hi].
  - destruct (proj1 (list_get_outcome _ g i) Hi) as (row & -> & Hrow). simpl.
    pose proof (row_width g i row Hw Hrow) as Hlen.
    destruct (Nat.lt_ge_cases j (List.length row)) as [Hj | Hj].
    + destruct (proj1 (list_set_outcome _ row j (Some c)) Hj) as [row' ->].
      simpl. split; [ | lia]. intros _.
      apply (proj1 (list_set_outcome _ g i row') Hi).
    + rewrite (proj2 (list_set_outcome _ row j (Some c)) Hj). simpl.
      split; [lia | reflexivity].
  - rewrite (proj2 (list_get_outcome _ g i) Hi). simpl.
    split; [lia | reflexivity].
Qed.

Lemma grid_set_shows (W W' : nat -> nat -> ascii -> Prop) (g g' : Grid)
    (i j : nat) (c0 : ascii) :
  grid_shows height width W g ->
  grid_set g i j c0 = Ret g' ->
  (forall r c ch, W' r c ch <-> W r c ch \/ (r = i /\ c = j /\ ch = c0)) ->
  grid_shows height width W' g'.
Proof.
  intros (Hh & Hw & Hc) H HW. unfold grid_set in H.
  inv_bind H. inv_bind H.
  unfold list_get in Hx. destruct (nth_error g i) as [row | ] eqn:Erow;
    [ | discriminate].
  inv_ret Hx.
  apply list_set_ret in Hx0 as (Hj & Hlen0 & Hnth0).
  apply list_set_ret in H as (Hi & Hlen & Hnth).
  pose proof (row_width g i x Hw Erow) as Hrow.
  split; [lia | split].
  - rewrite Forall_forall in *. intros row' Hin.
    apply In_nth_error in Hin as [m Hm]. rewrite Hnth in Hm.
    destruct (m =? i).
    + injection Hm as <-. lia.
    + apply Hw. eapply nth_error_In. eassumption.
  - intros r c Hr Hcw. unfold grid_cell. rewrite Hnth.
    destruct (r =? i) eqn:Er.
    + apply Nat.eqb_eq in Er. subst r. rewrite Hnth0.
      destruct (c =? j) eqn:Ec.
      * apply Nat.eqb_eq in Ec. subst c. right. exists c0.
        split; [reflexivity | apply HW; tauto].
      * apply Nat.eqb_neq in Ec.
        destruct (Hc i c Hr Hcw) as [[Hg Hn] | (ch & Hg & Hch)];
          unfold grid_cell in Hg; rewrite Erow in Hg.
        -- left. split; [exact Hg | ]. intros ch Hch.
           apply HW in Hch as [Hch | (_ & E & _)]; [now apply (Hn ch) | congruence].
        -- right. exists ch. split; [exact Hg | apply HW; tauto].
    + apply Nat.eqb_neq in Er.
      destruct (Hc r c Hr Hcw) as [[Hg Hn] | (ch & Hg & Hch)];
        unfold grid_cell in Hg.
      * left. split; [exact Hg | ]. intros ch Hch.
        apply HW in Hch as [Hch | (E & _)]; [now apply (Hn ch) | congruence].
      * right. exists ch. split; [exact Hg | apply HW; tauto].
Qed.

Lemma grid_shows_shape (W : nat -> nat -> ascii -> Prop) (g : Grid) :
  grid_shows height width W g ->
  List.length g = height /\ Forall (fun row => List.length row = width) g.
Proof. intros (H1 & H2 & _). now split. Qed.

Lemma write_letters_shows (v : Var) (w : string) (ks : list nat) :
  forall (W W' : nat -> nat -> ascii -> Prop) (g g' : Grid),
    grid_shows height width W g ->
    write_letters v w ks g = Ret g' ->
    (forall r c ch,
        W' r c ch <->
        W r c ch \/
        exists k, In k ks /\ String.get k w = Some ch
                  /\ cell_row v k = r /\ cell_col v k = c) ->
    grid_shows height width W' g'
    /\ forall k, In k ks -> cell_row v k < height /\ cell_col v k < width.
Proof.
  induction ks as [ | k ks IH]; simpl; intros W W' g g' Hg H HW.
  - inv_ret H. split; [ | intros k []].
    destruct Hg as (H1 & H2 & H3). split; [exact H1 | split; [exact H2 | ]].
    intros r c Hr Hc. destruct (H3 r c Hr Hc) as [[Hn Hno] | (ch & Hs & Hch)].
    + left. split; [exact Hn | ]. intros ch Hch.
      apply HW in Hch as [Hch | (k & [] & _)]. now apply (Hno ch).
    + right. exists ch. split; [exact Hs | apply HW; now left].
  - inv_bind H. inv_bind H. apply str_index_ret in Hx.
    destruct (grid_shows_shape W g Hg) as [Hh Hw].
    assert (Hb : cell_row v k < height /\ cell_col v k < width).
    { destruct (Nat.lt_ge_cases (cell_row v k) height) as [H1 | H1];
        destruct (Nat.lt_ge_cases (cell_col v k) width) as [H2 | H2];
        try (now split);
        rewrite (proj2 (grid_set_outcome g _ _ x Hh Hw)) in Hx0 by lia;
        discriminate. }
    pose proof (grid_set_shows W
                  (fun r c ch => W r c ch \/
                     (r = cell_row v k /\ c = cell_col v k /\ ch = x))
                  g x0 _ _ x Hg Hx0 (fun r c ch => iff_refl _)) as Hg1.
    destruct (IH _ W' _ _ Hg1 H) as [Hg' Hks].
    + intros r c ch. rewrite HW. split.
      * intros [Hw0 | (k' & [<- | Hin] & Hget & Hr & Hc)].
        -- left. now left.
        -- left. right. rewrite Hx in Hget. injection Hget as <-. now repeat split.
        -- right. now exists k'.
      * intros [[Hw0 | (Hr & Hc & ->)] | (k' & Hin & Hget & Hr & Hc)].
        -- now left.
        -- right. exists k. repeat split; trivial; [now left | congruence | congruence].
        -- right. exists k'. repeat split; trivial. now right.
    + split; [exact Hg' | ]. intros k' [<- | Hin]; [exact Hb | now apply Hks].
Qed.

Lemma write_letters_outcome (v : Var) (w : string) (ks : list nat) :
  forall (W : nat -> nat -> ascii -> Prop) (g : Grid),
    grid_shows height width W g ->
    (forall k, In k ks -> k < String.length w) ->
    ((forall k, In k ks -> cell_row v k < height /\ cell_col v k < width) ->
     exists g', write_letters v w ks g = Ret g')
    /\ ((exists g', write_letters v w ks g = Ret g')
        \/ write_letters v w ks g = Raise IndexError).
Proof.
  induction ks as [ | k ks IH]; simpl; intros W g Hg Hk.
  - split; [intros _; now exists g | left; now exists g].
  - destruct (str_index_in_range w k) as [c Hc]; [apply Hk; now left | ].
    rewrite Hc. simpl.
    destruct (grid_shows_shape W g Hg) as [Hh Hw].
    destruct (grid_set_outcome g (cell_row v k) (cell_col v k) c Hh Hw)
      as [Hin Hout].
    destruct (Nat.lt_ge_cases (cell_row v k) height) as [H1 | H1];
      destruct (Nat.lt_ge_cases (cell_col v k) width) as [H2 | H2];
      try (rewrite Hout by lia; simpl; split;
           [intro Hb; destruct (Hb k (or_introl eq_refl)); lia | now right]).
    destruct (Hin (conj H1 H2)) as [g1 Hg1]. rewrite Hg1. simpl.
    pose proof (grid_set_shows W _ g g1 _ _ c Hg Hg1
                  (fun r c' ch => iff_refl _)) as Hs1.
    destruct (IH _ g1 Hs1) as [Ha Hb]; [intros k' Hk'; apply Hk; now right | ].
    split; [ | exact Hb]. intro Hall. apply Ha.
    intros k' Hk'. apply Hall. now right.
Qed.

Lemma letter_loop_shows (items : Assignment) :
  forall (W W' : nat -> nat -> ascii -> Prop) (g g' : Grid),
    grid_shows height width W g ->
    letter_loop items g = Ret g' ->
    (forall r c ch, W' r c ch <-> W r c ch \/ written items r c ch) ->
    grid_shows height width W' g' /\ fits_grid height width items.
Proof.
  induction items as [ | [v w] items IH]; simpl; intros W W' g g' Hg H HW.
  - inv_ret H. split; [ | intros v w k []].
    destruct Hg as (H1 & H2 & H3). split; [exact H1 | split; [exact H2 | ]].
    intros r c Hr Hc. destruct (H3 r c Hr Hc) as [[Hn Hno] | (ch & Hs & Hch)].
    + left. split; [exact Hn | ]. intros ch Hch.
      apply HW in Hch as [Hch | (v & w & [] & _)]. now apply (Hno ch).
    + right. exists ch. split; [exact Hs | apply HW; now left].
  - inv_bind H.
    destruct (write_letters_shows v w _ W
                (fun r c ch => W r c ch \/
                   exists k, In k (seq 0 (String.length w))
                             /\ String.get k w = Some ch
                             /\ cell_row v k = r /\ cell_col v k = c)
                g x Hg Hx (fun r c ch => iff_refl _)) as [Hg1 Hfit].
    destruct (IH _ W' _ _ Hg1 H) as [Hg' Hfits].
    + intros r c ch. rewrite HW. unfold written. split.
      * intros [Hw0 | (v' & w' & [E | Hin] & k & Hget & Hr & Hc)].
        -- left. now left.
        -- injection E as <- <-. left. right. exists k. repeat split; trivial.
           apply in_seq. split; [lia | ]. simpl.
           destruct (Nat.lt_ge_cases k (String.length w)) as [Hlt | Hge]; trivial.
           exfalso. clear - Hget Hge. revert k Hget Hge.
           induction w as [ | a w IHw]; simpl; intros k Hget Hge; [discriminate | ].
           destruct k; [lia | ]. apply (IHw k); [exact Hget | lia].
        -- right. exists v', w'. split; [exact Hin | now exists k].
      * intros [[Hw0 | (k & _ & Hget & Hr & Hc)] | (v' & w' & Hin & Hwr)].
        -- now left.
        -- right. exists v, w. split; [now left | now exists k].
        -- right. exists v', w'. split; [now right | exact Hwr].
    + split; [exact Hg' | ]. intros v' w' k [E | Hin] Hk.
      * injection E as <- <-. apply Hfit. apply in_seq. lia.
      * now apply (Hfits v' w' k).
Qed.

Lemma letter_loop_outcome (items : Assignment) :
  forall (W : nat -> nat -> ascii -> Prop) (g : Grid),
    grid_shows height width W g ->
    (fits_grid height width items -> exists g', letter_loop items g = Ret g')
    /\ ((exists g', letter_loop items g = Ret g')
        \/ letter_loop items g = Raise IndexError).
Proof.
  induction items as [ | [v w] items IH]; simpl; intros W g Hg.
  - split; [intros _; now exists g | left; now exists g].
  - destruct (write_letters_outcome v w (seq 0 (String.length w)) W g Hg)
      as [Ha Hb]; [intros k Hk; apply in_seq in Hk; lia | ].
    destruct Hb as [[g1 Hg1] | Hr].
    + rewrite Hg1. simpl.
      destruct (write_letters_shows v w _ W _ g g1 Hg Hg1
                  (fun r c ch => iff_refl _)) as [Hs1 _].
      destruct (IH _ g1 Hs1) as [Ha' Hb']. split; [ | exact Hb'].
      intro Hfit. apply Ha'. intros v' w' k Hin. apply Hfit. now right.
    + rewrite Hr. simpl. split; [ | now right].
      intro Hfit. destruct Ha as [g' Hg']; [ | congruence].
      intros k Hk. apply in_seq in Hk. apply (Hfit v w k); [now left | lia].
Qed.

Lemma blank_grid_shows :
  grid_shows height width (fun _ _ _ => False) (blank_grid height width).
Proof.
  unfold blank_grid. split; [apply repeat_length | split].
  - apply Forall_forall. intros row Hin. apply repeat_spec in Hin. subst row.
    apply repeat_length.
  - intros r c Hr Hc. left. split; [ | tauto].
    unfold grid_cell. rewrite nth_error_repeat by exact Hr.
    now apply nth_error_repeat.
Qed.

End LetterGrid.

(** X12.  [letter_grid] on a grid of [height] rows and [width] columns
    returns, when every letter of every assigned word falls inside the
    grid, an array of [height] rows of [width] cells; when some letter
    falls outside, it raises IndexError. *)
Theorem letter_grid_outcome (height width : nat) (a : Assignment) :
  (fits_grid height width a ->
   exists g, letter_grid height width a = Ret g
     /\ List.length g = height
     /\ Forall (fun row => List.length row = width) g)
  /\ (~ fits_grid height width a ->
      letter_grid height width a = Raise IndexError).
Proof.
  unfold letter_grid.
  destruct (letter_loop_outcome height width a _ _
              (blank_grid_shows height width)) as [Ha Hb].
  split.
  - intro Hfit. destruct (Ha Hfit) as [g Hg]. exists g. split; [exact Hg | ].
    destruct (letter_loop_shows height width a _ _ _ g
                (blank_grid_shows height width) Hg
                (fun r c ch => iff_refl _)) as [(H1 & H2 & _) _].
    now split.
  - intro Hno. destruct Hb as [[g Hg] | Hr]; [exfalso | exact Hr].
    apply Hno.
    now destruct (letter_loop_shows height width a _ _ _ g
                    (blank_grid_shows height width) Hg
                    (fun r c ch => iff_refl _)).
Qed.

(** X13.  In the array [letter_grid] returns, a cell no assigned slot runs
    over holds [None], and a cell over which every assigned slot that
    runs there puts the same letter holds that letter. *)
Theorem letter_grid_cells (height width : nat) (a : Assignment) (g : Grid)
    (r c : nat) :
  letter_grid height width a = Ret g ->
  r < height -> c < width ->
  ((forall ch, ~ written a r c ch) -> grid_cell g r c = Some None)
  /\ (forall ch, written a r c ch ->
        (forall ch', written a r c ch' -> ch' = ch) ->
        grid_cell g r c = Some (Some ch)).
Proof.
  intros H Hr Hc. unfold letter_grid in H.
  destruct (letter_loop_shows height width a _
              (fun r c ch => False \/ written a r c ch) _ g
              (blank_grid_shows height width) H
              (fun r c ch => iff_refl _)) as [(_ & _ & Hcells) _].
  destruct (Hcells r c Hr Hc) as [[Hn Hno] | (ch0 & Hs & [[] | Hw0])].
  - split; [trivial | ]. intros ch Hw _. exfalso. apply (Hno ch). now right.
  - split.
    + intro Hno. exfalso. now apply (Hno ch0).
    + intros ch Hw Huniq. now rewrite Hs, (Huniq ch0 Hw0).
Qed.

Lemma letter_grid_cells_witness :
  letter_grid 3 3 cat_arc = Ret cat_arc_grid
  /\ grid_cell cat_arc_grid 1 0 = Some None
  /\ grid_cell cat_arc_grid 0 1 = Some (Some "a"%char).
Proof.
  assert (H : letter_grid 3 3 cat_arc = Ret cat_arc_grid)
    by (vm_compute; reflexivity).
  split; [exact H | split].
  - apply (letter_grid_cells 3 3 cat_arc cat_arc_grid 1 0 H); [lia | lia | ].
    intros ch (v & w & [E | [E | []]] & k & Hget & Hr & Hc);
      injection E as <- <-; unfold cell_row, cell_col in *; simpl in *; lia.
  - apply (letter_grid_cells 3 3 cat_arc cat_arc_grid 0 1 H); [lia | lia | | ].
    + exists slot_across, "cat"%string. split; [now left | ].
      exists 1. now repeat split.
    + intros ch (v & w & [E | [E | []]] & k & Hget & Hr & Hc);
        injection E as <- <-; unfold cell_row, cell_col in *; simpl in *.
      * assert (k = 1) by lia. subst k. simpl in Hget. congruence.
      * assert (k = 0) by lia. subst k. simpl in Hget. congruence.
Defined.

Example letter_grid_too_small :
  letter_grid 2 3 cat_arc = Raise IndexError.
Proof. vm_compute. reflexivity. Qed.

(** ** What [backtrack] adds to the assignment *)

Section SearchExtends.

Variable cw : Crossword.

Lemma try_words_extends (rec : State -> res State) (variable : Var)
    (s : State) :
  (forall s1 r, rec s1 = Ret r ->
     frame_ok cw s1 r
     /\ exists ext, assignment r = assignment s1 ++ ext
          /\ forall v w, In (v, w) ext ->
               In v (variables cw) /\ In w (domains s1 v)) ->
  In variable (variables cw) ->
  assigned variable (assignment s) = false ->
  forall ws s', incl ws (domains s variable) ->
    try_words cw rec variable ws s = Ret s' ->
    exists ext, assignment s' = assignment s ++ ext
      /\ forall v w, In (v, w) ext ->
           In v (variables cw) /\ In w (domains s v).
Proof.
  intros Hrec Hvar Hv. induction ws as [ | w ws IH]; simpl; intros s' Hi H.
  - inv_ret H. exists []. split; [now rewrite app_nil_r | intros v w []].
  - assert (Hi' : incl ws (domains s variable))
      by (intros x Hx; apply Hi; now right).
    inv_bind H. destruct x.
    + inv_bind H. inv_bind H.
      destruct (Hrec _ _ Hx0) as ((Hd & Ha & _) & ext & Hext & Hin).
      simpl in Hd, Ha, Hext, Hin.
      destruct x0.
      * inv_ret H. rewrite (dict_set_fresh _ _ _ Hv), <- app_assoc in Hext.
        exists ([(variable, w)] ++ ext). split; [exact Hext | ].
        intros v w' Hin'. apply in_app_or in Hin' as [[E | []] | Hin'].
        -- injection E as <- <-. split; [exact Hvar | apply Hi; now left].
        -- now apply Hin.
      * destruct Ha as [Ha | Ha]; [congruence | ].
        inv_bind H. rewrite Ha, (dict_pop_set_fresh _ _ _ Hv) in Hx2.
        inv_ret Hx2. rewrite (state_eta s x (assignment s) Hd eq_refl) in H.
        now apply IH.
    + inv_bind H. simpl in Hx0. rewrite (dict_pop_set_fresh _ _ _ Hv) in Hx0.
      inv_ret Hx0.
      rewrite (state_eta s (set_assignment s (dict_set variable w (assignment s)))
                 (assignment s) eq_refl eq_refl) in H.
      now apply IH.
Qed.

Lemma backtrack_extends (fuel : nat) :
  forall s s', backtrack cw fuel s = Ret s' ->
    exists ext, assignment s' = assignment s ++ ext
      /\ forall v w, In (v, w) ext ->
           In v (variables cw) /\ In w (domains s v).
Proof.
  induction fuel as [ | fuel IH]; simpl; intros s s' H; [discriminate | ].
  inv_bind H. destruct x.
  - inv_ret H. exists []. split; [now rewrite app_nil_r | intros v w []].
  - inv_bind H. apply select_unassigned_variable_ret in Hx0 as [Hvar Hv].
    eapply try_words_extends; [ | exact Hvar | exact Hv | apply incl_refl | exact H].
    intros s1 r Hr. split; [eapply backtrack_frame; eassumption | now apply IH].
Qed.

End SearchExtends.

(** X14.  The dict [backtrack] returns is the dict it was given with
    entries appended: no entry is dropped, changed or moved, and every
    entry added pairs a slot of the crossword with a word of that slot's
    domain. *)
Theorem backtrack_appends_entries (cw : Crossword) (fuel : nat) (s s' : State) :
  backtrack cw fuel s = Ret s' ->
  exists ext, assignment s' = assignment s ++ ext
    /\ forall v w, In (v, w) ext ->
         In v (variables cw) /\ In w (domains s v).
Proof. apply backtrack_extends. Qed.

Lemma backtrack_appends_entries_witness :
  backtrack cross_five 2
            (mkState (propagated cross_five) [(slot_across, "cat"%string)])
  = Ret (mkState (propagated cross_five) cat_arc)
  /\ exists ext,
       cat_arc = [(slot_across, "cat"%string)] ++ ext
       /\ forall v w, In (v, w) ext ->
            In v (variables cross_five) /\ In w (propagated cross_five v).
Proof.
  assert (H : backtrack cross_five 2
                (mkState (propagated cross_five) [(slot_across, "cat"%string)])
              = Ret (mkState (propagated cross_five) cat_arc))
    by (vm_compute; reflexivity).
  split; [exact H | ].
  exact (backtrack_appends_entries cross_five 2 _ _ H).
Defined.

(** ** What [ac3] does make arc consistent *)

Section Ac3Arcs.

Variable cw : Crossword.

Lemma initial_arcs_inner_mono (var : Var) (vars : list Var) :
  forall arcs a, In a arcs -> In a (initial_arcs_inner var vars arcs).
Proof.
  unfold initial_arcs_inner.
  induction vars as [ | var2 vars IH]; simpl; intros arcs a Ha; [exact Ha | ].
  apply IH. destruct (Var_eq_dec var var2); [exact Ha | ].
  destruct (in_dec arc_eq_dec (var2, var) arcs); [exact Ha | ].
  apply in_or_app. now left.
Qed.

Lemma initial_arcs_inner_covers (var : Var) (vars : list Var) :
  forall arcs u, In u vars -> var <> u ->
    In (var, u) (initial_arcs_inner var vars arcs)
    \/ In (u, var) (initial_arcs_inner var vars arcs).
Proof.
  induction vars as [ | var2 vars IH]; intros arcs u Hu Hne; [destruct Hu | ].
  destruct Hu as [-> | Hu].
  - unfold initial_arcs_inner. simpl. fold (initial_arcs_inner var vars).
    destruct (Var_eq_dec var u); [contradiction | ].
    destruct (in_dec arc_eq_dec (u, var) arcs) as [Hin | Hout].
    + right. now apply initial_arcs_inner_mono.
    + left. apply initial_arcs_inner_mono. apply in_or_app. right. now left.
  - unfold initial_arcs_inner. simpl. fold (initial_arcs_inner var vars).
    now apply IH.
Qed.

Lemma initial_arcs_inner_proper (var : Var) (vars : list Var) :
  In var (variables cw) -> incl vars (variables cw) ->
  forall arcs, proper_arcs cw arcs ->
    proper_arcs cw (initial_arcs_inner var vars arcs).
Proof.
  intros Hvar. unfold initial_arcs_inner.
  induction vars as [ | var2 vars IH]; simpl; intros Hi arcs Ha; [exact Ha | ].
  apply IH; [intros v Hv; apply Hi; now right | ].
  destruct (Var_eq_dec var var2); [exact Ha | ].
  destruct (in_dec arc_eq_dec (var2, var) arcs); [exact Ha | ].
  intros x y Hin. apply in_app_or in Hin as [Hin | [E | []]]; [now apply Ha | ].
  injection E as <- <-. split; [assumption | split; [exact Hvar | apply Hi; now left]].
Qed.

Lemma initial_arcs_fold (vars : list Var) :
  incl vars (variables cw) ->
  forall arcs, proper_arcs cw arcs ->
    let r := fold_left (fun arcs var =>
                          initial_arcs_inner var (variables cw) arcs)
                       vars arcs in
    proper_arcs cw r
    /\ (forall a, In a arcs -> In a r)
    /\ (forall x y, In x vars -> In y (variables cw) -> x <> y ->
                    In (x, y) r \/ In (y, x) r).
Proof.
  induction vars as [ | var vars IH]; intros Hi arcs Ha; cbn zeta.
  - simpl. split; [exact Ha | split; [trivial | intros x y []]].
  - cbn [fold_left].
    assert (Hvar : In var (variables cw)) by (apply Hi; now left).
    assert (Hi' : incl vars (variables cw)) by (intros v Hv; apply Hi; now right).
    destruct (IH Hi' (initial_arcs_inner var (variables cw) arcs))
      as (H1 & H2 & H3).
    { now apply initial_arcs_inner_proper; [ | apply incl_refl | ]. }
    split; [exact H1 | split].
    + intros a Hin. now apply H2, initial_arcs_inner_mono.
    + intros x y [<- | Hx] Hy Hne; [ | now apply H3].
      destruct (initial_arcs_inner_covers var (variables cw) arcs y Hy Hne);
        [left | right]; now apply H2.
Qed.

Lemma initial_arcs_proper : proper_arcs cw (initial_arcs cw).
Proof.
  unfold initial_arcs.
  now apply (initial_arcs_fold (variables cw) (incl_refl _) []); intros x y [].
Qed.

Lemma initial_arcs_cover (x y : Var) :
  In x (variables cw) -> In y (variables cw) -> x <> y ->
  In (x, y) (initial_arcs cw) \/ In (y, x) (initial_arcs cw).
Proof.
  unfold initial_arcs.
  now apply (initial_arcs_fold (variables cw) (incl_refl _) []); intros x' y' [].
Qed.

Lemma enqueue_fold_in (x y : Var) (ns : list Var) :
  forall arcs,
    (forall a, In a arcs ->
               In a (fold_left (fun arcs neighbor =>
                                  if Var_eq_dec neighbor y then arcs
                                  else arcs ++ [(neighbor, x)]) ns arcs))
    /\ (forall z, In z ns -> z <> y ->
                  In (z, x) (fold_left (fun arcs neighbor =>
                                          if Var_eq_dec neighbor y then arcs
                                          else arcs ++ [(neighbor, x)]) ns arcs)).
Proof.
  induction ns as [ | n ns IH]; simpl; intro arcs.
  - split; [trivial | intros z []].
  - destruct (Var_eq_dec n y) as [-> | N].
    + destruct (IH arcs) as [H1 H2]. split; [exact H1 | ].
      intros z [<- | Hz] Hne; [contradiction | now apply H2].
    + destruct (IH (arcs ++ [(n, x)])) as [H1 H2]. split.
      * intros a Ha. apply H1, in_or_app. now left.
      * intros z [<- | Hz] Hne; [ | now apply H2].
        apply H1, in_or_app. right. now left.
Qed.

Lemma enqueue_neighbors_proper (x y : Var) (arcs : list (Var * Var)) :
  In x (variables cw) -> proper_arcs cw arcs ->
  proper_arcs cw (enqueue_neighbors cw x y arcs).
Proof.
  intros Hx. unfold enqueue_neighbors.
  assert (G : forall ns, (forall n, In n ns -> In n (neighbors cw x)) ->
            forall arcs, proper_arcs cw arcs ->
              proper_arcs cw
                (fold_left (fun arcs neighbor =>
                              if Var_eq_dec neighbor y then arcs
                              else arcs ++ [(neighbor, x)]) ns arcs)).
  { induction ns as [ | n ns IH]; simpl; intros Hn arcs0 Ha; [exact Ha | ].
    apply IH; [intros m Hm; apply Hn; now right | ].
    destruct (Var_eq_dec n y); [exact Ha | ].
    intros p q Hin. apply in_app_or in Hin as [Hin | [E | []]]; [now apply Ha | ].
    injection E as <- <-.
    destruct (neighbors_in cw x n (Hn n (or_introl eq_refl))) as (H1 & H2 & _).
    now repeat split. }
  now apply G.
Qed.

Hypothesis Hwf : wf_crossword cw.

Lemma revise_support_transfer (x y p q : Var) (d d1 : Domains) (b : bool) :
  revise cw x y d = Ret (b, d1) -> NoDup (d x) -> x <> y ->
  p <> q -> In p (variables cw) ->
  arc_supported cw d p q ->
  arc_supported cw d1 p q \/ (q = x /\ In p (neighbors cw x) /\ p <> y).
Proof.
  intros H Hn Hxy Hpq Hp Hs.
  destruct (revise_exact cw x y d d1 b H Hn Hxy) as (Ho & Hin & _).
  destruct (Var_eq_dec q x) as [-> | Nq].
  - assert (Hpx : d1 p = d p) by now apply Ho.
    destruct (Var_eq_dec p y) as [-> | Np].
    + left. intros u Hu i j Eo. rewrite Hpx in Hu.
      destruct (Hs u Hu i j Eo) as (w & Hw & c & Hc & Hc').
      exists w. split; [ | now exists c].
      apply Hin. split; [exact Hw | ].
      intros i' j' Eo'. apply (wf_sym cw Hwf) in Eo'. rewrite Eo in Eo'.
      injection Eo' as -> ->.
      exists u. split; [now rewrite Hpx | now exists c].
    + destruct (overlaps cw p x) as [o | ] eqn:Eo.
      * right. split; [reflexivity | split; [ | exact Np]].
        unfold neighbors. apply filter_In. split; [exact Hp | ].
        rewrite Eo. simpl. now destruct (Var_eq_dec p x).
      * left. intros u Hu i j Eo'. congruence.
  - left. intros u Hu i j Eo.
    assert (Hu' : In u (d p)) by now apply (revise_shrinks cw _ _ _ _ _ H).
    destruct (Hs u Hu' i j Eo) as (w & Hw & Hc).
    exists w. split; [now rewrite (Ho q Nq) | exact Hc].
Qed.

Lemma ac3_loop_supports (T : list (Var * Var)) (fuel : nat) :
  forall arcs d d',
    proper_arcs cw arcs -> domains_are_sets cw d ->
    (forall p q, In (p, q) T ->
       (p <> q /\ In p (variables cw))
       /\ (In (p, q) arcs \/ arc_supported cw d p q)) ->
    ac3_loop cw fuel arcs d = Ret (true, d') ->
    forall p q, In (p, q) T -> arc_supported cw d' p q.
Proof.
  induction fuel as [ | fuel IH]; simpl; intros arcs d d' Ha Hs HT H;
    [discriminate | ].
  destruct (list_pop arcs) as [[[x y] arcs'] | ] eqn:Hp.
  - apply list_pop_some in Hp. subst arcs.
    destruct (Ha x y) as (Hxy & Hx & Hy); [apply in_or_app; right; now left | ].
    assert (Ha' : proper_arcs cw arcs')
      by (intros p q Hin; apply Ha, in_or_app; now left).
    inv_bind H. destruct x0 as [revised d1]. simpl in H, Hx0.
    pose proof (Hs x Hx) as Hnd.
    destruct (revise_exact cw x y d d1 revised Hx0 Hnd Hxy)
      as (Ho & Hin & _).
    assert (Hs1 : domains_are_sets cw d1).
    { intros v Hv. now apply (revise_ret cw x y d d1 revised Hx0), Hs. }
    assert (Hxy1 : arc_supported cw d1 x y)
      by (intros w Hw; now apply Hin in Hw).
    assert (Hstep : forall arcs1,
               (forall a, In a arcs' -> In a arcs1) ->
               (forall z, In z (neighbors cw x) -> z <> y -> In (z, x) arcs1) ->
               forall p q, In (p, q) T ->
                 (p <> q /\ In p (variables cw))
                 /\ (In (p, q) arcs1 \/ arc_supported cw d1 p q)).
    { intros arcs1 Hsub Henq p q Hin'.
      destruct (HT p q Hin') as [[Hpq Hpv] Hcase]. split; [now split | ].
      destruct Hcase as [Hin'' | Hsup].
      - apply in_app_or in Hin'' as [Hin'' | [E | []]]; [left; now apply Hsub | ].
        injection E as <- <-. now right.
      - destruct (revise_support_transfer x y p q d d1 revised Hx0 Hnd Hxy
                    Hpq Hpv Hsup) as [Hok | (-> & Hnb & Hne)];
          [now right | left; now apply Henq]. }
    destruct revised.
    + destruct (List.length (d1 x) =? 0); [discriminate | ].
      apply (IH _ _ _ (enqueue_neighbors_proper x y arcs' Hx Ha') Hs1); [ | exact H].
      apply Hstep; unfold enqueue_neighbors.
      * intros a. apply (enqueue_fold_in x y (neighbors cw x) arcs').
      * intros z. apply (enqueue_fold_in x y (neighbors cw x) arcs').
    + apply (IH _ _ _ Ha' Hs1); [ | exact H].
      intros p q Hin'. destruct (HT p q Hin') as [[Hpq Hpv] Hcase].
      split; [now split | ].
      destruct Hcase as [Hin'' | Hsup].
      * apply in_app_or in Hin'' as [Hin'' | [E | []]]; [now left | ].
        injection E as <- <-. now right.
      * right. pose proof (revise_not_revised cw x y d d1 Hx0) as Heq.
        intros w Hw i j Eo. rewrite Heq in Hw.
        destruct (Hsup w Hw i j Eo) as (w' & Hw' & Hc).
        exists w'. split; [now rewrite Heq | exact Hc].
  - injection H as <-. apply list_pop_none in Hp. subst arcs.
    intros p q Hin. destruct (HT p q Hin) as [_ [[] | Hsup]]. exact Hsup.
Qed.

End Ac3Arcs.

(** X15.  When [ac3], run with no seed arcs on a store of sets of a
    well-formed crossword, returns [True], every arc of its initial
    worklist is consistent in the store it leaves: each word of the arc's
    first slot has a partner in the domain of its second slot.  That
    worklist holds, for every two distinct slots, the arc in one direction
    or the other. *)
Theorem ac3_makes_initial_arcs_consistent (cw : Crossword) (d d' : Domains) :
  wf_crossword cw ->
  domains_are_sets cw d ->
  ac3 cw None d = Ret (true, d') ->
  (forall x y, In (x, y) (initial_arcs cw) -> arc_supported cw d' x y)
  /\ (forall x y, In x (variables cw) -> In y (variables cw) -> x <> y ->
                  arc_supported cw d' x y \/ arc_supported cw d' y x).
Proof.
  intros Hwf Hs H. unfold ac3 in H.
  assert (G : forall x y, In (x, y) (initial_arcs cw) -> arc_supported cw d' x y).
  { apply (ac3_loop_supports cw Hwf (initial_arcs cw)
             (ac3_fuel cw (initial_arcs cw) d) (initial_arcs cw) d d'
             (initial_arcs_proper cw) Hs); [ | exact H].
    intros p q Hin. destruct (initial_arcs_proper cw p q Hin) as (H1 & H2 & _).
    split; [now split | now left]. }
  split; [exact G | ].
  intros x y Hx Hy Hne.
  destruct (initial_arcs_cover cw x y Hx Hy Hne); [left | right]; now apply G.
Qed.

Lemma ac3_makes_initial_arcs_consistent_witness :
  ac3 cross_cat_arc_dog None (node_store cross_cat_arc_dog)
  = Ret (true, propagated cross_cat_arc_dog)
  /\ arc_supported cross_cat_arc_dog (propagated cross_cat_arc_dog)
                   slot_across slot_down.
Proof.
  assert (Hwf : wf_crossword cross_cat_arc_dog)
    by (apply wf_cross; distinct_words).
  assert (H : ac3 cross_cat_arc_dog None (node_store cross_cat_arc_dog)
              = Ret (true, propagated cross_cat_arc_dog))
    by (vm_compute; reflexivity).
  split; [exact H | ].
  apply (ac3_makes_initial_arcs_consistent cross_cat_arc_dog _ _ Hwf) in H.
  - apply H. vm_compute. now left.
  - intros v [<- | [<- | []]]; vm_compute; distinct_words.
Defined.
